(** * maestro-express: the Express adapter of the Maestro API core

    A shallow embedding of the adapter's sources
    ([Adapter.ts], [sendResponse/SendResponse.ts], [commands/Commands.ts],
    [errorHandler/ErrorHandler.ts], [transformRequest/TransformRequest.ts])
    and the properties its specification states about them.

    Conventions of the embedding.
    - A JavaScript string is a [string]: a sequence of code units below 256.
    - A JavaScript object used as a dictionary is the list of its own
      enumerable properties in [for ... in] order; the object
      [loadedRoutes()] builds ([RoutesByURL]) is its own entries as a [gmap]
      together with its prototype.
    - A function of the sources that can raise returns a [Completion]: the
      calls made, and what was thrown if anything was.
    - Objects compared by reference carry their address ([route_ref]).
    - The Express response handle and the [next] continuation are the log of
      the calls made on them; Express, Node and the Maestro core are
      collaborators and their own failures are outside the model.
    - Inputs range over the TypeScript types the sources declare; the
      payload of a command is any value. *)

From Stdlib Require Import ZArith Ascii String List Bool Lia.
From stdpp Require Import base strings list gmap fin_maps pretty.

Set Warnings "-register-all".

Local Open Scope string_scope.
Local Open Scope list_scope.

(** ** JavaScript values and the string primitives the sources call *)

Module Js.

(** A JavaScript value as far as the adapter reads one. A number is an
    integer (status codes, exit codes). *)
Inductive value : Type :=
| JUndefined
| JNull
| JBool (b : bool)
| JNum (n : Z)
| JStr (s : string)
| JArr (items : list value)
| JObj (props : list (string * value)).

(** An object literal: own enumerable properties in enumeration order. *)
Definition object := list (string * value).

(** [o[k]]: the property, [undefined] when the object has none. *)
Fixpoint get (o : object) (k : string) : value :=
  match o with
  | [] => JUndefined
  | (k', v) :: rest => if String.eqb k' k then v else get rest k
  end.

(** [Array.prototype.join] on an array of strings. *)
Fixpoint join (sep : string) (l : list string) : string :=
  match l with
  | [] => ""
  | [x] => x
  | x :: rest => x +:+ sep +:+ join sep rest
  end.

(** The abstract operation ToString, as string concatenation applies it to
    its right operand. *)
Fixpoint ToString (v : value) : string :=
  match v with
  | JUndefined => "undefined"
  | JNull => "null"
  | JBool true => "true"
  | JBool false => "false"
  | JNum n => pretty n
  | JStr s => s
  | JArr items =>
      join ","
        ((fix each (l : list value) : list string :=
            match l with
            | [] => []
            | JUndefined :: rest => "" :: each rest
            | JNull :: rest => "" :: each rest
            | x :: rest => ToString x :: each rest
            end) items)
  | JObj _ => "[object Object]"
  end.

(** [s + v] with a string on the left. *)
Definition string_plus (s : string) (v : value) : string := s +:+ ToString v.

(** The enumerable properties [for ... in] visits: those of an object, the
    indices of an array or of a string, none for the other values. *)
Definition props_of (v : value) : object :=
  match v with
  | JObj props => props
  | JArr items => zip (map pretty (seq 0 (List.length items))) items
  | JStr s =>
      zip (map pretty (seq 0 (String.length s)))
          (map (fun c => JStr (String c EmptyString)) (list_ascii_of_string s))
  | _ => []
  end.

Definition for_in (v : value) : list string := map fst (props_of v).

(** [v[k]] on a value that is neither [null] nor [undefined], for a key
    [for ... in] can produce; [undefined] for any other key. Reading a
    member of [null] or [undefined] raises: the code that does so tests
    [nullish] first. *)
Definition member (v : value) (k : string) : value := get (props_of v) k.

Definition nullish (v : value) : bool :=
  match v with
  | JUndefined | JNull => true
  | _ => false
  end.

(** [l.includes(x)] on an array of strings. *)
Definition includes (l : list string) (x : string) : bool :=
  existsb (String.eqb x) l.

(** [a ?? b]. *)
Definition nullish_coalescing (a b : value) : value :=
  match a with
  | JUndefined | JNull => b
  | _ => a
  end.

(** White space and line terminators of [String.prototype.trim] among the
    code units below 256: TAB, LF, VT, FF, CR, SP and NBSP. *)
Definition is_white_space (c : ascii) : bool :=
  let n := nat_of_ascii c in
  (Nat.leb 9 n && Nat.leb n 13) || Nat.eqb n 32 || Nat.eqb n 160.

Fixpoint trimStart (s : string) : string :=
  match s with
  | EmptyString => EmptyString
  | String c rest => if is_white_space c then trimStart rest else s
  end.

Fixpoint trimEnd (s : string) : string :=
  match s with
  | EmptyString => EmptyString
  | String c rest =>
      match trimEnd rest with
      | EmptyString => if is_white_space c then EmptyString else String c EmptyString
      | t => String c t
      end
  end.

Definition trim (s : string) : string := trimEnd (trimStart s).

(** [s.charAt(0)]: the first code unit as a string, or the empty string. *)
Definition charAt0 (s : string) : string :=
  match s with
  | EmptyString => EmptyString
  | String c _ => String c EmptyString
  end.

End Js.
Import Js.

(** ** Types of the Maestro core the adapter is written against *)

(** Modelled from the spec: the [HTTPMethod] tags of the [maestro] package,
    whose declaration is not part of the adapter's sources; the spec lists
    the fixed set and [addRouteToHttpMethod] has one case for each. *)
Inductive HTTPMethod : Type :=
| all | get_ | search | post | put | patch | delete_ | head | options
| connect | trace.

(** Modelled from the spec: [RouteRequest] of the [maestro] package, absent
    from the sources. The spec gives it the adapter's name, the original
    URL, a method tag, an identification and a parameter bag keyed by name
    and source, filled in insertion order by [add]. *)
Record RouteRequest : Type := {
  adapter : string;
  req_url : string;
  req_method : option HTTPMethod;
  identification : value;
  parameters : list (string * value * string)
}.

Definition new_RouteRequest (adapterName originalUrl : string) : RouteRequest :=
  {| adapter := adapterName; req_url := originalUrl; req_method := None;
     identification := JUndefined; parameters := [] |}.

Definition add (name : string) (v : value) (origin : string) (req : RouteRequest)
  : RouteRequest :=
  {| adapter := adapter req; req_url := req_url req;
     req_method := req_method req; identification := identification req;
     parameters := parameters req ++ [(name, v, origin)] |}.

Definition set_identification (i : value) (req : RouteRequest) : RouteRequest :=
  {| adapter := adapter req; req_url := req_url req;
     req_method := req_method req; identification := i;
     parameters := parameters req |}.

Definition set_method (m : HTTPMethod) (req : RouteRequest) : RouteRequest :=
  {| adapter := adapter req; req_url := req_url req;
     req_method := Some m; identification := identification req;
     parameters := parameters req |}.

(** ** transformRequest/TransformRequest.ts *)

(** [Adapter.ADAPTER_NAME]. *)
Definition ADAPTER_NAME : string := "Express".

(** The Express request, as far as the normalizer reads it. *)
Record Request : Type := {
  originalUrl : string;
  ips : list string;
  headers : object;
  cookies : object;
  body : object;
  query : object;
  params : object
}.

(** [for (let k in o) req.add(k, o[k], origin)]. *)
Definition add_all (o : object) (origin : string) (req : RouteRequest) : RouteRequest :=
  fold_left (fun acc k => add k (get o k) origin acc) (map fst o) req.

(** The right-hand side of [let requestIdentification = ...]. Addition
    binds tighter than [??], so the whole concatenation is the left operand
    of [??]. *)
Definition requestIdentification (request : Request) : value :=
  nullish_coalescing
    (JStr (string_plus (join " - " (ips request) +:+ " | ")
                       (get (headers request) "user-agent")))
    (JStr "UA-NOT-PROVIDED").

Definition TransformRequest (request : Request) : RouteRequest :=
  let req := new_RouteRequest ADAPTER_NAME (originalUrl request) in
  let req := set_identification (requestIdentification request) req in
  let req := add_all (headers request) "header" req in
  let req := add_all (cookies request) "cookie" req in
  let req := add_all (body request) "body" req in
  let req := add_all (query request) "query" req in
  let req := add_all (params request) "url" req in
  req.

(** What the spec's sentence on the identification describes: the sentinel
    stands in for an absent user-agent header. *)
Definition identification_by_spec (request : Request) : value :=
  JStr (join " - " (ips request) +:+ " | " +:+
        match get (headers request) "user-agent" with
        | JUndefined | JNull => "UA-NOT-PROVIDED"
        | ua => ToString ua
        end).

(** The parameters one source object contributes, in enumeration order. *)
Definition entries (o : object) (origin : string) : list (string * value * string) :=
  map (fun k => (k, get o k, origin)) (map fst o).

(** The raw request holds [name] with value [v] in the object that the
    source tag [origin] stands for. *)
Definition came_from (request : Request) (name : string) (v : value) (origin : string)
  : Prop :=
  (origin = "header" /\ In name (map fst (headers request)) /\ v = get (headers request) name) \/
  (origin = "cookie" /\ In name (map fst (cookies request)) /\ v = get (cookies request) name) \/
  (origin = "body" /\ In name (map fst (body request)) /\ v = get (body request) name) \/
  (origin = "query" /\ In name (map fst (query request)) /\ v = get (query request) name) \/
  (origin = "url" /\ In name (map fst (params request)) /\ v = get (params request) name).


(** ** errorHandler/ErrorHandler.ts, commands/Commands.ts and
       sendResponse/SendResponse.ts *)

(** Modelled from the spec: the error values the translator tells apart.
    The class [ApiError] belongs to the [auria-maestro] package; the spec
    gives a recognized API error an explicit HTTP status and a message.
    Every other error is an instance of some other class. *)
Inductive error : Type :=
| ApiError (httpStatus : Z) (message : string)
| OtherError (constructor_name message : string).

(** A call on the Express response handle, or on the [next] continuation
    that accompanies it. *)
Inductive ExpressCall : Type :=
| setHeader (name : string) (v : value)
| cookie (name : string) (val options : value)
| status (code : Z)
| send (body : value)
| next (e : error).

(** The response handle of one request: the calls made so far. *)
Definition Response := list ExpressCall.

(** How a function that works on the response handle ends: it returns, or
    it throws; either way with the calls made until then. *)
Inductive Completion : Type :=
| returned (response : Response)
| threw (response : Response) (thrown : error).

Definition written (c : Completion) : Response :=
  match c with
  | returned response => response
  | threw response _ => response
  end.

(** [c; k]: the statements [k] run only if [c] returned. *)
Definition and_then (c : Completion) (k : Response -> Completion) : Completion :=
  match c with
  | returned response => k response
  | threw response thrown => threw response thrown
  end.

(** A loop over [l] that an exception of its body leaves. *)
Fixpoint run_each {A : Type} (body : Response -> A -> Completion) (l : list A)
    (response : Response) : Completion :=
  match l with
  | [] => returned response
  | x :: rest => and_then (body response x) (run_each body rest)
  end.

Definition ErrorHandler (response : Response) (e : error) : Response :=
  match e with
  | ApiError httpStatus message =>
      let response := response ++ [status httpStatus] in
      response ++ [send (JObj [("error", JStr message)])]
  | _ => response ++ [next e]
  end.

(** Modelled from the spec: [ICommand] of the [auria-maestro] package,
    [{name, adapters?, payload}]. The spec has [adapters] as a list of
    adapter names; [applyCommandsToResponse] also compares the field with
    one name, so the field is left out, one name, or an array of names. *)
Inductive adapters_field : Type :=
| adapters_absent
| adapters_name (s : string)
| adapters_array (l : list string).

Module ICommand.
Record t : Type := { name : string; adapters : adapters_field; payload : value }.
End ICommand.

(** What [applyCommandsToResponse] accepts: a command or an array, whose
    items it takes the same way. *)
Inductive commands_arg : Type :=
| Command (c : ICommand.t)
| CommandArray (l : list commands_arg).

(** Modelled from the spec: [IApiRouteResponse] of the [auria-maestro]
    package: a status code, a payload, an exit code and optional commands. *)
Module IApiRouteResponse.
Record t : Type := {
  payload : value;
  commands : option commands_arg;
  exitCode : Z;
  status : Z
}.
End IApiRouteResponse.

(** What [Commands[name](response, payload)] does for a member
    [Commands[name]] that is neither [null] nor [undefined]. *)
Definition CommandHandler := Response -> value -> Completion.

(** The ['setHeader'] entry of [Commands]. *)
Definition Commands_setHeader : CommandHandler := fun response headers =>
  returned
    (fold_left (fun r headerName => r ++ [setHeader headerName (member headers headerName)])
               (for_in headers) response).

(** The body of the loop of ['setCookie'] over the names [for ... in]
    gives: [cookies[cookieName].value] raises when the entry is [null] or
    [undefined]. *)
Definition setCookie_body (cookies : value) (response : Response) (cookieName : string)
  : Completion :=
  if nullish (member cookies cookieName)
  then threw response
         (OtherError "TypeError" "Cannot read properties of null or undefined (reading 'value')")
  else returned
         (response ++ [cookie cookieName (member (member cookies cookieName) "value")
                              (member cookies cookieName)]).

(** The ['setCookie'] entry of [Commands]. *)
Definition Commands_setCookie : CommandHandler := fun response cookies =>
  run_each (setCookie_body cookies) (for_in cookies) response.

(** A member that is not a function: calling it raises. *)
Definition not_a_function : CommandHandler := fun response _ =>
  threw response (OtherError "TypeError" "Commands[commands.name] is not a function").

(** [Object.prototype.__defineGetter__] and [__defineSetter__] called with
    a payload, which is data and not a function. *)
Definition expecting_function : CommandHandler := fun response _ =>
  threw response (OtherError "TypeError" "Object.prototype.__defineGetter__: Expecting function").

(** A function of [Object.prototype] that reads its arguments and changes
    nothing. *)
Definition without_effect : CommandHandler := fun response _ => returned response.

(** [Commands[name]] on the registry object of [Commands.ts]: [None] when
    the member is [undefined]. The object is a literal, so besides the two
    entries it defines the lookup finds the members of [Object.prototype]:
    [__proto__] is that prototype itself, an object that cannot be called;
    the others are functions, called here with the response and the payload
    as arguments. *)
Definition ExpressCommands (name : string) : option CommandHandler :=
  if String.eqb name "setHeader" then Some Commands_setHeader
  else if String.eqb name "setCookie" then Some Commands_setCookie
  else if String.eqb name "__proto__" then Some not_a_function
  else if String.eqb name "__defineGetter__" then Some expecting_function
  else if String.eqb name "__defineSetter__" then Some expecting_function
  else if existsb (String.eqb name)
            ["constructor"; "hasOwnProperty"; "isPrototypeOf"; "propertyIsEnumerable";
             "toString"; "toLocaleString"; "valueOf"; "__lookupGetter__";
             "__lookupSetter__"]
  then Some without_effect
  else None.

Section CommandExecutor.

(** The registry [applyCommandsToResponse] looks names up in. *)
Variable Commands : string -> option CommandHandler.

Fixpoint applyCommandsToResponse (response : Response) (commands : commands_arg)
  : Completion :=
  match commands with
  | CommandArray l =>
      (fix each (l : list commands_arg) (response : Response) : Completion :=
         match l with
         | [] => returned response
         | command :: rest =>
             match applyCommandsToResponse response command with
             | returned response => each rest response
             | threw response thrown => threw response thrown
             end
         end) l response
  | Command c =>
      let skipped :=
        match ICommand.adapters c with
        | adapters_array l => negb (includes l ADAPTER_NAME)
        | _ => false
        end in
      if skipped then returned response
      else
        let unspecified_or_express :=
          match ICommand.adapters c with
          | adapters_absent => true
          | adapters_name s => String.eqb s ADAPTER_NAME
          | adapters_array _ => false
          end in
        if unspecified_or_express then
          match Commands (ICommand.name c) with
          | Some handler => handler response (ICommand.payload c)
          | None => returned response
          end
        else returned response
  end.

Definition SendResponse (routeResp : IApiRouteResponse.t) (response : Response)
  : Completion :=
  let send_ := IApiRouteResponse.payload routeResp in
  and_then
    match IApiRouteResponse.commands routeResp with
    | Some commands => applyCommandsToResponse response commands
    | None => returned response
    end
    (fun response =>
       let response :=
         response ++
         [setHeader "X-Exit-Code" (JNum (IApiRouteResponse.exitCode routeResp))] in
       let response := response ++ [status (IApiRouteResponse.status routeResp)] in
       returned (response ++ [send send_])).

(** The spec's reading of a command list: nested lists flattened, in order. *)
Fixpoint flatten (commands : commands_arg) : list ICommand.t :=
  match commands with
  | Command c => [c]
  | CommandArray l =>
      (fix each (l : list commands_arg) : list ICommand.t :=
         match l with
         | [] => []
         | command :: rest => flatten command ++ each rest
         end) l
  end.

(** The Command Executor on one command. *)
Definition execute (response : Response) (c : ICommand.t) : Completion :=
  applyCommandsToResponse response (Command c).

End CommandExecutor.

(** What the calls leave on a response: the status last set, the body last
    sent, and the errors passed to [next]. *)
Record Outgoing : Type := {
  statusCode : option Z;
  outgoing_body : option value;
  forwarded : list error
}.

Definition record_call (o : Outgoing) (c : ExpressCall) : Outgoing :=
  match c with
  | setHeader _ _ => o
  | cookie _ _ _ => o
  | status code =>
      {| statusCode := Some code; outgoing_body := outgoing_body o;
         forwarded := forwarded o |}
  | send b =>
      {| statusCode := statusCode o; outgoing_body := Some b; forwarded := forwarded o |}
  | next e =>
      {| statusCode := statusCode o; outgoing_body := outgoing_body o;
         forwarded := forwarded o ++ [e] |}
  end.

Definition outgoing (response : Response) : Outgoing :=
  fold_left record_call response
    {| statusCode := None; outgoing_body := None; forwarded := [] |}.

(** ** Adapter.ts *)

(** Modelled from the spec: [IProxiedRoute] and [IContainer] of the
    [maestro] package. A route descriptor is a URL with one method tag or an
    array of them; a container gives its routes as a sequence. *)
Inductive methods_field : Type :=
| one_method (m : HTTPMethod)
| method_array (l : list HTTPMethod).

(** The adapter compares descriptors by reference: [ref] is the address of
    the object. *)
Module IProxiedRoute.
Record t : Type := { ref : nat; url : string; methods : methods_field }.
End IProxiedRoute.

(** A container, also compared by reference, with what [allRoutes()]
    returns. *)
Module IContainer.
Record t : Type := { ref : nat; allRoutes : list IProxiedRoute.t }.
End IContainer.

(** Modelled from the spec: the event names of [events/Events.ts], which is
    not among the sources; the spec lists per-method registration events, a
    generic registration event and the response and error events of a
    request. The names are those [Adapter.ts] uses. *)
Inductive Events : Type :=
| ALL_REQUEST | GET_REQUEST | POST_REQUEST | PUT_REQUEST | PATCH_REQUEST
| DELETE_REQUEST | HEAD_REQUEST | OPTIONS_REQUEST | CONNECT_REQUEST
| TRACE_REQUEST | REQUEST | REQUEST_ERROR | REQUEST_RESPONSE.

(** One [this.emit(...)] with its arguments. *)
Inductive emission : Type :=
| emit_route (e : Events) (route : IProxiedRoute.t)
| emit_route_method (e : Events) (route : IProxiedRoute.t) (method : HTTPMethod)
| emit_error (e : Events) (err : error) (route : IProxiedRoute.t) (request : Request)
| emit_response (e : Events) (routeResp : IApiRouteResponse.t) (route : IProxiedRoute.t).

(** One [this.express.METHOD(url, handler)]: the Express verb, the URL, and
    the route and method the handler closes over. *)
Record binding : Type := {
  verb : HTTPMethod;
  path : string;
  bound_route : IProxiedRoute.t;
  bound_method : HTTPMethod
}.

(** The Express application: the middleware installed by [use], the
    settings switched off by [disable], the routes bound. *)
Record Application : Type := {
  used : list string;
  disabled : list string;
  bindings : list binding
}.

(** [express()]. *)
Definition new_Application : Application :=
  {| used := []; disabled := []; bindings := [] |}.

Definition use (middleware : string) (app : Application) : Application :=
  {| used := used app ++ [middleware]; disabled := disabled app;
     bindings := bindings app |}.

Definition disable (setting : string) (app : Application) : Application :=
  {| used := used app; disabled := disabled app ++ [setting];
     bindings := bindings app |}.

Definition bind (b : binding) (app : Application) : Application :=
  {| used := used app; disabled := disabled app; bindings := bindings app ++ [b] |}.

(** A call that concerns a listener: [express.listen(port)], which returns
    the server numbered [server], or [server.close()]. *)
Inductive ServerCall : Type :=
| listen (server : nat) (port : Z)
| close (server : nat).

(** What the business handler does with its two continuations. *)
Inductive Continuation : Type :=
| sendResponse (routeResp : IApiRouteResponse.t)
| sendError (e : error).

(** [Maestro['handle']]: given the route and the request, the calls of the
    continuations the handler makes, in order. *)
Definition ApiHandler := IProxiedRoute.t -> RouteRequest -> list Continuation.

(** The fields of the class, together with the events emitted so far and
    the listener calls made so far. *)
Record Adapter : Type := {
  express : Application;
  containers : list IContainer.t;
  _port : Z;
  _booted : bool;
  _started : bool;
  _server : option nat;
  _loadedRoutes : list IProxiedRoute.t;
  _transformRequest : Request -> RouteRequest;
  _sendResponse : IApiRouteResponse.t -> Response -> Response;
  _apiHandler : option ApiHandler;
  _errorHandler : Response -> error -> Response;
  emitted : list emission;
  servers : list ServerCall
}.

Definition set_express (v : Application) (a : Adapter) : Adapter :=
  {| express := v; containers := containers a; _port := _port a; _booted := _booted a;
     _started := _started a; _server := _server a; _loadedRoutes := _loadedRoutes a;
     _transformRequest := _transformRequest a; _sendResponse := _sendResponse a;
     _apiHandler := _apiHandler a; _errorHandler := _errorHandler a;
     emitted := emitted a; servers := servers a |}.

Definition set_containers (v : list IContainer.t) (a : Adapter) : Adapter :=
  {| express := express a; containers := v; _port := _port a; _booted := _booted a;
     _started := _started a; _server := _server a; _loadedRoutes := _loadedRoutes a;
     _transformRequest := _transformRequest a; _sendResponse := _sendResponse a;
     _apiHandler := _apiHandler a; _errorHandler := _errorHandler a;
     emitted := emitted a; servers := servers a |}.

Definition set_port (v : Z) (a : Adapter) : Adapter :=
  {| express := express a; containers := containers a; _port := v;
     _booted := _booted a; _started := _started a; _server := _server a;
     _loadedRoutes := _loadedRoutes a; _transformRequest := _transformRequest a;
     _sendResponse := _sendResponse a; _apiHandler := _apiHandler a;
     _errorHandler := _errorHandler a; emitted := emitted a; servers := servers a |}.

Definition set_booted (v : bool) (a : Adapter) : Adapter :=
  {| express := express a; containers := containers a; _port := _port a; _booted := v;
     _started := _started a; _server := _server a; _loadedRoutes := _loadedRoutes a;
     _transformRequest := _transformRequest a; _sendResponse := _sendResponse a;
     _apiHandler := _apiHandler a; _errorHandler := _errorHandler a;
     emitted := emitted a; servers := servers a |}.

Definition set_started (v : bool) (a : Adapter) : Adapter :=
  {| express := express a; containers := containers a; _port := _port a;
     _booted := _booted a; _started := v; _server := _server a;
     _loadedRoutes := _loadedRoutes a; _transformRequest := _transformRequest a;
     _sendResponse := _sendResponse a; _apiHandler := _apiHandler a;
     _errorHandler := _errorHandler a; emitted := emitted a; servers := servers a |}.

Definition set_server (v : option nat) (a : Adapter) : Adapter :=
  {| express := express a; containers := containers a; _port := _port a;
     _booted := _booted a; _started := _started a; _server := v;
     _loadedRoutes := _loadedRoutes a; _transformRequest := _transformRequest a;
     _sendResponse := _sendResponse a; _apiHandler := _apiHandler a;
     _errorHandler := _errorHandler a; emitted := emitted a; servers := servers a |}.

Definition set_loadedRoutes (v : list IProxiedRoute.t) (a : Adapter) : Adapter :=
  {| express := express a; containers := containers a; _port := _port a;
     _booted := _booted a; _started := _started a; _server := _server a;
     _loadedRoutes := v; _transformRequest := _transformRequest a;
     _sendResponse := _sendResponse a; _apiHandler := _apiHandler a;
     _errorHandler := _errorHandler a; emitted := emitted a; servers := servers a |}.

Definition set_transformRequest (v : Request -> RouteRequest) (a : Adapter) : Adapter :=
  {| express := express a; containers := containers a; _port := _port a;
     _booted := _booted a; _started := _started a; _server := _server a;
     _loadedRoutes := _loadedRoutes a; _transformRequest := v;
     _sendResponse := _sendResponse a; _apiHandler := _apiHandler a;
     _errorHandler := _errorHandler a; emitted := emitted a; servers := servers a |}.

Definition set_sendResponse (v : IApiRouteResponse.t -> Response -> Response) (a : Adapter) : Adapter :=
  {| express := express a; containers := containers a; _port := _port a;
     _booted := _booted a; _started := _started a; _server := _server a;
     _loadedRoutes := _loadedRoutes a; _transformRequest := _transformRequest a;
     _sendResponse := v; _apiHandler := _apiHandler a;
     _errorHandler := _errorHandler a; emitted := emitted a; servers := servers a |}.


Definition set_errorHandler (v : Response -> error -> Response) (a : Adapter) : Adapter :=
  {| express := express a; containers := containers a; _port := _port a;
     _booted := _booted a; _started := _started a; _server := _server a;
     _loadedRoutes := _loadedRoutes a; _transformRequest := _transformRequest a;
     _sendResponse := _sendResponse a; _apiHandler := _apiHandler a;
     _errorHandler := v; emitted := emitted a; servers := servers a |}.

Definition set_emitted (v : list emission) (a : Adapter) : Adapter :=
  {| express := express a; containers := containers a; _port := _port a;
     _booted := _booted a; _started := _started a; _server := _server a;
     _loadedRoutes := _loadedRoutes a; _transformRequest := _transformRequest a;
     _sendResponse := _sendResponse a; _apiHandler := _apiHandler a;
     _errorHandler := _errorHandler a; emitted := v; servers := servers a |}.

Definition set_servers (v : list ServerCall) (a : Adapter) : Adapter :=
  {| express := express a; containers := containers a; _port := _port a;
     _booted := _booted a; _started := _started a; _server := _server a;
     _loadedRoutes := _loadedRoutes a; _transformRequest := _transformRequest a;
     _sendResponse := _sendResponse a; _apiHandler := _apiHandler a;
     _errorHandler := _errorHandler a; emitted := emitted a; servers := v |}.

Definition emit (e : emission) (a : Adapter) : Adapter :=
  set_emitted (emitted a ++ [e]) a.

Definition DEFAULT_PORT : Z := 3000.

(** [onPort(port)]. *)
Definition onPort (port : Z) (a : Adapter) : Adapter :=
  if _started a then a else set_port port a.

(** [new Adapter(port)]. The constructor ends with
    [this.onPort(port ?? Adapter.DEFAULT_PORT)] on an adapter that is not
    started, which replaces whatever the initializer of [_port] read from
    the environment ([env_port]). The field [_sendResponse] holds the calls
    [SendResponse] makes on the response: what it throws goes to the
    business handler that called the continuation. *)
Definition new_Adapter_on (env_port : Z) (port : option Z) : Adapter :=
  onPort (default DEFAULT_PORT port)
    {| express := new_Application; containers := []; _port := env_port;
       _booted := false; _started := false; _server := None;
       _loadedRoutes := [];
       _transformRequest := TransformRequest;
       _sendResponse :=
         fun routeResp response => written (SendResponse ExpressCommands routeResp response);
       _apiHandler := None;
       _errorHandler := ErrorHandler;
       emitted := []; servers := [] |}.

Definition new_Adapter (port : option Z) : Adapter := new_Adapter_on 0 port.

Definition setTransformRequestFunction (func : Request -> RouteRequest) := set_transformRequest func.
Definition setSendResponseFunction (func : IApiRouteResponse.t -> Response -> Response) :=
  set_sendResponse func.
Definition setErrorHanlder (handler : Response -> error -> Response) := set_errorHandler handler.

(** [this.containers.includes(container)]. *)
Definition includes_container (l : list IContainer.t) (container : IContainer.t) : bool :=
  existsb (fun c => Nat.eqb (IContainer.ref c) (IContainer.ref container)) l.

Definition addContainer (container : IContainer.t) (a : Adapter) : Adapter :=
  if negb (includes_container (containers a) container)
  then set_containers (containers a ++ [container]) a
  else a.

(** [this._loadedRoutes.includes(route)]: is that very object in the array? *)
Definition includes_route (l : list IProxiedRoute.t) (route : IProxiedRoute.t) : bool :=
  existsb (fun r => Nat.eqb (IProxiedRoute.ref r) (IProxiedRoute.ref route)) l.

(** [this.express.METHOD(url, (req, res, next) => ...)]: the handler closes
    over [route] and [method]. *)
Definition express_bind (verb : HTTPMethod) (url : string) (route : IProxiedRoute.t)
    (method : HTTPMethod) (a : Adapter) : Adapter :=
  set_express
    (bind {| verb := verb; path := url; bound_route := route; bound_method := method |}
          (express a)) a.

Definition addRouteToHttpMethod (method : HTTPMethod) (route : IProxiedRoute.t)
    (a : Adapter) : Adapter :=
  let url :=
    if negb (String.eqb (charAt0 (trim (IProxiedRoute.url route))) "/")
    then "/" +:+ trim (IProxiedRoute.url route)
    else trim (IProxiedRoute.url route) in
  let a :=
    match method with
    | all => emit (emit_route ALL_REQUEST route) (express_bind all url route method a)
    | get_ => emit (emit_route GET_REQUEST route) (express_bind get_ url route method a)
    | search => emit (emit_route GET_REQUEST route) (express_bind search url route method a)
    | post => emit (emit_route POST_REQUEST route) (express_bind post url route method a)
    | put => emit (emit_route PUT_REQUEST route) (express_bind put url route method a)
    | patch => emit (emit_route PATCH_REQUEST route) (express_bind patch url route method a)
    | delete_ =>
        emit (emit_route DELETE_REQUEST route) (express_bind delete_ url route method a)
    | head => emit (emit_route HEAD_REQUEST route) (express_bind head url route method a)
    | options =>
        emit (emit_route OPTIONS_REQUEST route) (express_bind options url route method a)
    | connect =>
        emit (emit_route CONNECT_REQUEST route) (express_bind connect url route method a)
    | trace => emit (emit_route TRACE_REQUEST route) (express_bind trace url route method a)
    end in
  emit (emit_route_method REQUEST route method) a.

(** The body of the loop over the routes of a container. *)
Definition loadRoute (a : Adapter) (route : IProxiedRoute.t) : Adapter :=
  if includes_route (_loadedRoutes a) route then a
  else
    let methods :=
      match IProxiedRoute.methods route with
      | one_method m => [m]
      | method_array l => l
      end in
    let a := fold_left (fun a method => addRouteToHttpMethod method route a) methods a in
    set_loadedRoutes (_loadedRoutes a ++ [route]) a.

Definition loadRoutesFromContainers (containers : list IContainer.t) (a : Adapter)
  : Adapter :=
  fold_left (fun a container => fold_left loadRoute (IContainer.allRoutes container) a)
            containers a.

Definition boot (a : Adapter) : Adapter :=
  if _booted a then a
  else
    let a := set_express (use "bodyParser.json()" (express a)) a in
    let a := set_express (use "bodyParser.urlencoded({ extended: true })" (express a)) a in
    let a := set_express (use "cookieParser()" (express a)) a in
    let a := set_express (disable "x-powered-by" (express a)) a in
    let a := loadRoutesFromContainers (containers a) a in
    set_booted true a.

Definition start (a : Adapter) : Adapter :=
  let a := boot a in
  let server := List.length (servers a) in
  let a := set_servers (servers a ++ [listen server (_port a)]) a in
  let a := set_server (Some server) a in
  set_started true a.

(** [stop()]. A started adapter always has its server; were the field
    empty, the call on it would raise and leave the adapter as it is. *)
Definition stop (a : Adapter) : Adapter :=
  if _started a then
    match _server a with
    | Some server =>
        let a := set_servers (servers a ++ [close server]) a in
        set_started false a
    | None => a
    end
  else a.

(** The object [loadedRoutes()] builds: its own entries, and its prototype
    when that is no longer [Object.prototype]. *)
Record RoutesByURL : Type := {
  own_entries : gmap string IProxiedRoute.t;
  prototype : option IProxiedRoute.t
}.

(** The number of own entries of the object ([Object.keys]), and the own
    entry under a key; reading a name that has no entry goes on to the
    prototype and is not an entry. *)
Global Instance RoutesByURL_size : Size RoutesByURL :=
  fun loaded => size (own_entries loaded).

Global Instance RoutesByURL_lookup : Lookup string IProxiedRoute.t RoutesByURL :=
  fun u loaded => own_entries loaded !! u.

(** [loaded[route.url] = route]. Under the key [__proto__] the assignment
    reaches the setter of [Object.prototype]: the route becomes the
    prototype of the object and no entry is made. Under any other key it
    makes or replaces an entry (the members of a route object are taken to
    be plain data properties, which an entry of the same name shadows). *)
Definition assign (loaded : RoutesByURL) (route : IProxiedRoute.t) : RoutesByURL :=
  if String.eqb (IProxiedRoute.url route) "__proto__"
  then {| own_entries := own_entries loaded; prototype := Some route |}
  else {| own_entries := <[IProxiedRoute.url route := route]> (own_entries loaded);
          prototype := prototype loaded |}.

Definition loadedRoutes (a : Adapter) : RoutesByURL :=
  fold_left assign (_loadedRoutes a) {| own_entries := ∅; prototype := None |}.

(** How a run of the request handler ends: the promise of the [async]
    function is fulfilled, or rejected with what was thrown. *)
Inductive Outcome : Type :=
| fulfilled
| rejected (thrown : error).

(** A run of [_requestHandler]: the adapter with the events emitted, the
    response handle, the local [apiRequest] and the outcome. *)
Record Run : Type := {
  run_adapter : Adapter;
  run_response : Response;
  apiRequest : RouteRequest;
  outcome : Outcome
}.

Section RequestHandler.

(** [new RequestFlowNotDefined(message)] of the [maestro] package, whose
    class is not among the sources. *)
Variable RequestFlowNotDefined : string -> error.

(** The two callbacks handed to the business handler, applied to what the
    handler passes them. *)
Definition continue_with (route : IProxiedRoute.t) (request : Request)
    (st : Adapter * Response) (k : Continuation) : Adapter * Response :=
  let (a, response) := st in
  match k with
  | sendResponse routeResp =>
      let response := _sendResponse a routeResp response in
      (emit (emit_response REQUEST_RESPONSE routeResp route) a, response)
  | sendError e =>
      let response := _errorHandler a response e in
      (emit (emit_error REQUEST_ERROR e route request) a, response)
  end.

Definition _requestHandler (a : Adapter) (route : IProxiedRoute.t) (method : HTTPMethod)
    (request : Request) (response : Response) : Run :=
  let st :=
    match _apiHandler a with
    | None =>
        let e := RequestFlowNotDefined
                   "Express adapter does not have an associated api request handler" in
        let response := _errorHandler a response e in
        (emit (emit_error REQUEST_ERROR e route request) a, response)
    | Some _ => (a, response)
    end in
  let apiRequest := _transformRequest a request in
  let apiRequest := set_method method apiRequest in
  match _apiHandler a with
  | Some handler =>
      let st := fold_left (continue_with route request) (handler route apiRequest) st in
      {| run_adapter := fst st; run_response := snd st; apiRequest := apiRequest;
         outcome := fulfilled |}
  | None =>
      {| run_adapter := fst st; run_response := snd st; apiRequest := apiRequest;
         outcome := rejected (OtherError "TypeError" "this._apiHandler is not a function") |}
  end.

End RequestHandler.

(** ** Definitions the properties are stated with, and sample inputs *)

Definition request_without_user_agent : Request :=
  {| originalUrl := "/users?page=2"; ips := ["10.0.0.1"; "10.0.0.2"];
     headers := [("host", JStr "example.org")];
     cookies := []; body := []; query := [("page", JStr "2")]; params := [] |}.

Section commands_arg_induction.

Variable P : commands_arg -> Prop.
Hypothesis P_Command : forall c, P (Command c).
Hypothesis P_CommandArray : forall l, Forall P l -> P (CommandArray l).

(** Induction on a command list that reaches the items of nested lists. *)
Fixpoint commands_arg_nested_ind (commands : commands_arg) : P commands :=
  match commands with
  | Command c => P_Command c
  | CommandArray l =>
      P_CommandArray l
        ((fix each (l : list commands_arg) : Forall P l :=
            match l with
            | [] => Stdlib.Lists.List.Forall_nil P
            | command :: rest =>
                @Stdlib.Lists.List.Forall_cons _ P command rest
                  (commands_arg_nested_ind command) (each rest)
            end) l)
  end.

End commands_arg_induction.

Definition set_test_header (a : adapters_field) : ICommand.t :=
  {| ICommand.name := "setHeader"; ICommand.adapters := a;
     ICommand.payload := JObj [("X-Test", JStr "1")] |}.

Definition nested_commands : commands_arg :=
  CommandArray
    [ CommandArray [Command (set_test_header adapters_absent)];
      CommandArray
        [CommandArray
           [Command
              {| ICommand.name := "setCookie"; ICommand.adapters := adapters_name "Express";
                 ICommand.payload :=
                   JObj [("session", JObj [("value", JStr "abc"); ("httpOnly", JBool true)])] |}]] ].

Definition exit_code_7 (commands : option commands_arg) : IApiRouteResponse.t :=
  {| IApiRouteResponse.payload := JObj [("ok", JBool true)];
     IApiRouteResponse.commands := commands;
     IApiRouteResponse.exitCode := 7;
     IApiRouteResponse.status := 200 |}.

(** White space only, at the front, at the end: what [trim] is about. *)
Fixpoint all_white_space (s : string) : bool :=
  match s with
  | EmptyString => true
  | String c rest => is_white_space c && all_white_space rest
  end.

Definition begins_with_white_space (s : string) : bool :=
  match s with
  | String c _ => is_white_space c
  | EmptyString => false
  end.

Fixpoint ends_with_white_space (s : string) : bool :=
  match s with
  | EmptyString => false
  | String c EmptyString => is_white_space c
  | String _ rest => ends_with_white_space rest
  end.

(** The routes of all containers, in the order the loops visit them. *)
Definition all_routes (containers : list IContainer.t) : list IProxiedRoute.t :=
  flat_map IContainer.allRoutes containers.

Definition method_list (route : IProxiedRoute.t) : list HTTPMethod :=
  match IProxiedRoute.methods route with
  | one_method m => [m]
  | method_array l => l
  end.

(** The URL the spec describes for a binding: the descriptor's URL trimmed,
    with a slash put in front unless it begins with one. *)
Definition begins_with_slash (s : string) : bool :=
  match s with
  | String c _ => Ascii.eqb c "/"
  | EmptyString => false
  end.

Definition url_by_spec (u : string) : string :=
  if begins_with_slash (trim u) then trim u else "/" +:+ trim u.

(** The event each [case] of the switch emits for its method tag. *)
Definition registration_event (method : HTTPMethod) : Events :=
  match method with
  | all => ALL_REQUEST
  | get_ | search => GET_REQUEST
  | post => POST_REQUEST
  | put => PUT_REQUEST
  | patch => PATCH_REQUEST
  | delete_ => DELETE_REQUEST
  | head => HEAD_REQUEST
  | options => OPTIONS_REQUEST
  | connect => CONNECT_REQUEST
  | trace => TRACE_REQUEST
  end.

(** The one binding of a method tag of a descriptor. *)
Definition binding_of (route : IProxiedRoute.t) (method : HTTPMethod) : binding :=
  {| verb := method; path := url_by_spec (IProxiedRoute.url route);
     bound_route := route; bound_method := method |}.

(** Is the object at address [k] in the array? *)
Definition includes_ref (l : list IProxiedRoute.t) (k : nat) : bool :=
  existsb (fun r => Nat.eqb (IProxiedRoute.ref r) k) l.

(** The bindings of the descriptor at address [k]. *)
Definition bindings_of (k : nat) (a : Adapter) : list binding :=
  List.filter (fun b => Nat.eqb (IProxiedRoute.ref (bound_route b)) k)
              (bindings (express a)).

(** The first descriptor at address [k] among [routes]. *)
Definition find_route (k : nat) (routes : list IProxiedRoute.t) : option IProxiedRoute.t :=
  List.find (fun r => Nat.eqb (IProxiedRoute.ref r) k) routes.

Definition users_route : IProxiedRoute.t :=
  {| IProxiedRoute.ref := 1; IProxiedRoute.url := "  users ";
     IProxiedRoute.methods := method_array [get_; post] |}.

Definition users_route_again : IProxiedRoute.t :=
  {| IProxiedRoute.ref := 2; IProxiedRoute.url := "  users ";
     IProxiedRoute.methods := one_method delete_ |}.

Definition health_route : IProxiedRoute.t :=
  {| IProxiedRoute.ref := 3; IProxiedRoute.url := "/health";
     IProxiedRoute.methods := one_method all |}.

Definition api_container : IContainer.t :=
  {| IContainer.ref := 1;
     IContainer.allRoutes := [users_route; health_route; users_route_again; users_route] |}.

(** The fields that concern the listener. *)
Definition listener_fields (a : Adapter) : list ServerCall * Z * bool * option nat :=
  (servers a, _port a, _started a, _server a).

Definition no_handler_error (constructor : string -> error) : error :=
  constructor "Express adapter does not have an associated api request handler".

(** ** Further definitions: the rest of [Adapter.ts] and what the further
       properties are stated with *)

(** Defining the property [k] of an object under construction: an existing
    property keeps its place and takes the new value, a new one goes to the
    end. *)
Fixpoint set_property (o : object) (k : string) (v : value) : object :=
  match o with
  | [] => [(k, v)]
  | (k', v') :: rest =>
      if String.eqb k' k then (k', v) :: rest else (k', v') :: set_property rest k v
  end.

(** [{ ...target, ...source }]: the properties of [source] defined one by
    one on a copy of [target]. *)
Definition spread (target source : object) : object :=
  fold_left (fun o kv => set_property o (fst kv) (snd kv)) source target.

(** [Adapter.CreateCookie]; [options] is the [CookieOptions] object. *)
Definition CreateCookie (name value : string) (options : object) : ICommand.t :=
  {| ICommand.name := "create-cookie";
     ICommand.adapters := adapters_array [ADAPTER_NAME];
     ICommand.payload := JObj (spread [("name", JStr name); ("value", JStr value)] options) |}.

(** The second test of [applyCommandsToResponse] on a command: its
    [adapters] is left out, or is this adapter's name. *)
Definition addressed (c : ICommand.t) : bool :=
  match ICommand.adapters c with
  | adapters_absent => true
  | adapters_name s => String.eqb s ADAPTER_NAME
  | adapters_array _ => false
  end.

(** The registry lookup and call on one command. *)
Definition run_handler (Commands : string -> option CommandHandler)
    (response : Response) (c : ICommand.t) : Completion :=
  match Commands (ICommand.name c) with
  | Some handler => handler response (ICommand.payload c)
  | None => returned response
  end.

(** The [response.cookie] calls for the entries of a cookie payload under
    the given names. *)
Definition cookie_calls (props : object) (names : list string) : list ExpressCall :=
  map (fun k => cookie k (member (get props k) "value") (get props k)) names.

(** The names of the members of [Object.prototype] whose call raises when
    it is given the response and a payload. *)
Definition raising_members : list string :=
  ["__proto__"; "__defineGetter__"; "__defineSetter__"].

(** A command, for this adapter, under a given name. *)
Definition command_named (name : string) (payload : value) : ICommand.t :=
  {| ICommand.name := name; ICommand.adapters := adapters_absent;
     ICommand.payload := payload |}.

(** A cookie payload whose second entry is [null]. *)
Definition cookies_with_null : value :=
  JObj [("first", JObj [("value", JStr "1")]); ("second", JNull);
        ("third", JObj [("value", JStr "3")])].





Definition request_with_user_agent : Request :=
  {| originalUrl := "/health"; ips := [];
     headers := [("user-agent", JStr "curl/8.0"); ("accept", JStr "*/*")];
     cookies := [("sid", JStr "abc")]; body := []; query := []; params := [] |}.

(** The fields that loading routes leaves alone. *)
Definition untouched_by_loading (a : Adapter) :=
  (containers a, _port a, _booted a, _started a, _server a, servers a,
   used (express a), disabled (express a)).

(** The functions the adapter calls for a request. *)
Definition collaborators (a : Adapter) :=
  (_transformRequest a, _sendResponse a, _apiHandler a, _errorHandler a).

(** The two events that follow a binding. *)
Definition announce (b : binding) : list emission :=
  [emit_route (registration_event (bound_method b)) (bound_route b);
   emit_route_method REQUEST (bound_route b) (bound_method b)].



(** The middleware [boot] installs, in order. *)
Definition boot_middleware : list string :=
  ["bodyParser.json()"; "bodyParser.urlencoded({ extended: true })"; "cookieParser()"].

Definition admin_container : IContainer.t :=
  {| IContainer.ref := 2;
     IContainer.allRoutes :=
       [{| IProxiedRoute.ref := 7; IProxiedRoute.url := "admin";
           IProxiedRoute.methods := one_method get_ |}] |}.

(** * Properties *)

(** ** Strings *)

Section Strings.

Lemma append_cons (ch : ascii) (a b : string) :
  String ch a +:+ b = String ch (a +:+ b).
Proof. reflexivity. Qed.

Lemma append_assoc (a b c : string) : (a +:+ b) +:+ c = a +:+ (b +:+ c).
Proof. induction a as [| ch a IH]; [done |]. by rewrite !append_cons, IH. Qed.

Lemma append_inj_l (a b c : string) : a +:+ b = a +:+ c -> b = c.
Proof.
  induction a as [| ch a IH]; [done |]. rewrite !append_cons.
  intros H. apply IH. by inversion H.
Qed.

Lemma trimStart_spec (s : string) :
  exists l, s = l +:+ trimStart s /\ all_white_space l = true /\
            begins_with_white_space (trimStart s) = false.
Proof.
  induction s as [| c s (l & Hs & Hl & Hfirst)]; [by exists "" |].
  simpl. destruct (is_white_space c) eqn:E.
  - exists (String c l). rewrite append_cons, <- Hs. simpl. by rewrite E, Hl.
  - exists "". simpl. by rewrite E.
Qed.

Lemma trimEnd_spec (s : string) :
  exists r, s = trimEnd s +:+ r /\ all_white_space r = true /\
            ends_with_white_space (trimEnd s) = false.
Proof.
  induction s as [| c s (r & Hs & Hr & Hlast)]; [by exists "" |].
  simpl. destruct (trimEnd s) as [| c' t] eqn:Et.
  - destruct (is_white_space c) eqn:E.
    + change ("" +:+ r) with r in Hs. subst r. exists (String c s).
      simpl. by rewrite E, Hr.
    + exists r. rewrite append_cons, <- Hs. simpl. by rewrite E.
  - exists r. rewrite append_cons, <- Hs. by simpl in *.
Qed.

Lemma trimEnd_begins (s : string) :
  begins_with_white_space s = false -> begins_with_white_space (trimEnd s) = false.
Proof.
  destruct s as [| c s]; [done |]. simpl. intros E.
  destruct (trimEnd s); simpl; by rewrite ?E.
Qed.

(** [trim] takes white space off both ends and nothing else. *)
Lemma trim_spec (s : string) :
  exists l r,
    s = l +:+ trim s +:+ r /\ all_white_space l = true /\ all_white_space r = true /\
    begins_with_white_space (trim s) = false /\ ends_with_white_space (trim s) = false.
Proof.
  destruct (trimStart_spec s) as (l & Hs & Hl & Hfirst).
  destruct (trimEnd_spec (trimStart s)) as (r & Ht & Hr & Hlast).
  exists l, r. unfold trim. rewrite <- Ht, <- Hs.
  split; [done |]. split; [done |]. split; [done |].
  split; [by apply trimEnd_begins | done].
Qed.

End Strings.

(** ** The Request Normalizer *)

Section Normalizer.

Lemma add_all_fold (o : object) (origin : string) (keys : list string) (req : RouteRequest) :
  fold_left (fun acc k => add k (get o k) origin acc) keys req =
  {| adapter := adapter req; req_url := req_url req;
     req_method := req_method req; identification := identification req;
     parameters := parameters req ++ map (fun k => (k, get o k, origin)) keys |}.
Proof.
  revert req. induction keys as [| k keys IH]; intros req; simpl.
  - rewrite app_nil_r. by destruct req.
  - rewrite IH. simpl. by rewrite <- app_assoc.
Qed.

Lemma add_all_parameters (o : object) (origin : string) (req : RouteRequest) :
  parameters (add_all o origin req) = parameters req ++ entries o origin.
Proof. unfold add_all, entries. by rewrite add_all_fold. Qed.

Lemma add_all_identification (o : object) (origin : string) (req : RouteRequest) :
  identification (add_all o origin req) = identification req.
Proof. unfold add_all. by rewrite add_all_fold. Qed.

Lemma TransformRequest_parameters (request : Request) :
  parameters (TransformRequest request) =
  entries (headers request) "header" ++ entries (cookies request) "cookie" ++
  entries (body request) "body" ++ entries (query request) "query" ++
  entries (params request) "url".
Proof.
  unfold TransformRequest. rewrite !add_all_parameters. simpl.
  by rewrite <- !app_assoc.
Qed.

Lemma TransformRequest_identification (request : Request) :
  identification (TransformRequest request) =
  JStr (join " - " (ips request) +:+ " | " +:+
        ToString (get (headers request) "user-agent")).
Proof.
  unfold TransformRequest. rewrite !add_all_identification. simpl.
  unfold requestIdentification, string_plus. simpl.
  by rewrite append_assoc.
Qed.

Lemma In_entries (o : object) (origin name src : string) (v : value) :
  In (name, v, src) (entries o origin) <->
  src = origin /\ In name (map fst o) /\ v = get o name.
Proof.
  unfold entries. rewrite in_map_iff. split.
  - intros (k & Heq & Hin). inversion Heq; subst. auto.
  - intros (-> & Hin & ->). exists name. auto.
Qed.

(** X7: with a user-agent header the identification is the one the spec
    describes. *)
Lemma TransformRequest_identification_with_user_agent (request : Request) (ua : string) :
  get (headers request) "user-agent" = JStr ua ->
  identification (TransformRequest request) =
  JStr (join " - " (ips request) +:+ " | " +:+ ua).
Proof. intros H. rewrite TransformRequest_identification. by rewrite H. Qed.

(** C2: the identification of a request that has no user-agent header.
    The concatenation is the left operand of [??] and is never nullish, so
    the identification ends in the text of [undefined]; the "not provided"
    sentinel of the spec's sentence is never produced. *)
Theorem TransformRequest_identification_without_user_agent (request : Request) :
  get (headers request) "user-agent" = JUndefined ->
  identification (TransformRequest request) =
    JStr (join " - " (ips request) +:+ " | undefined") /\
  identification (TransformRequest request) <> identification_by_spec request.
Proof.
  intros H. rewrite TransformRequest_identification. rewrite H. simpl.
  split; [done |]. unfold identification_by_spec. rewrite H.
  intros Heq. inversion Heq as [Hs]. apply append_inj_l in Hs. discriminate.
Qed.

Lemma TransformRequest_identification_without_user_agent_witness :
  identification (TransformRequest request_without_user_agent) =
    JStr "10.0.0.1 - 10.0.0.2 | undefined" /\
  identification (TransformRequest request_without_user_agent) <>
    JStr "10.0.0.1 - 10.0.0.2 | UA-NOT-PROVIDED".
Proof.
  apply (TransformRequest_identification_without_user_agent request_without_user_agent).
  reflexivity.
Defined.

(** C7: a parameter is in the bag of the Canonical Request under a source
    tag exactly when the raw request holds it in the object of that source:
    every header, cookie, body field, query parameter and URL parameter is
    there under its own tag, and nothing is there under another one. *)
Theorem TransformRequest_parameters_by_source
    (request : Request) (name : string) (v : value) (origin : string) :
  In (name, v, origin) (parameters (TransformRequest request)) <->
  came_from request name v origin.
Proof.
  rewrite TransformRequest_parameters. rewrite !in_app_iff, !In_entries.
  unfold came_from. tauto.
Qed.

End Normalizer.

(** ** The Command Executor and the Response Materializer *)

Section Executor.

Variable Commands : string -> option CommandHandler.

Lemma and_then_returned (c : Completion) : and_then c returned = c.
Proof. by destruct c. Qed.

Lemma and_then_assoc (c : Completion) (k1 k2 : Response -> Completion) :
  and_then (and_then c k1) k2 = and_then c (fun response => and_then (k1 response) k2).
Proof. by destruct c. Qed.

Lemma run_each_app {A : Type} (body : Response -> A -> Completion) (l1 l2 : list A) :
  forall response,
    run_each body (l1 ++ l2) response =
    and_then (run_each body l1 response) (run_each body l2).
Proof.
  induction l1 as [| x l1 IH]; intros response; [done |].
  cbn [app run_each]. rewrite and_then_assoc.
  destruct (body response x) as [r | r e]; [apply IH | done].
Qed.

Lemma applyCommandsToResponse_nil (response : Response) :
  applyCommandsToResponse Commands response (CommandArray []) = returned response.
Proof. reflexivity. Qed.

Lemma applyCommandsToResponse_cons (response : Response) command rest :
  applyCommandsToResponse Commands response (CommandArray (command :: rest)) =
  and_then (applyCommandsToResponse Commands response command)
    (fun response => applyCommandsToResponse Commands response (CommandArray rest)).
Proof. reflexivity. Qed.

Lemma flatten_cons command rest :
  flatten (CommandArray (command :: rest)) = flatten command ++ flatten (CommandArray rest).
Proof. reflexivity. Qed.

(** The recursion of the executor is the flattening of the spec: the
    commands of nested lists run one by one, in order, until one raises. *)
Lemma applyCommandsToResponse_flatten (commands : commands_arg) :
  forall response,
    applyCommandsToResponse Commands response commands =
    run_each (execute Commands) (flatten commands) response.
Proof.
  induction commands as [c | l IH] using commands_arg_nested_ind; intros response.
  - cbn [flatten run_each]. by rewrite and_then_returned.
  - revert response. induction IH as [| command rest Hc _ IHrest]; intros response.
    + reflexivity.
    + rewrite applyCommandsToResponse_cons, flatten_cons, run_each_app, Hc.
      destruct (run_each (execute Commands) (flatten command) response) as [r | r e];
        [apply IHrest | done].
Qed.

(** A command whose [adapters] array leaves this adapter out is skipped. *)
Lemma execute_excluded (response : Response) (c : ICommand.t) (l : list string) :
  ICommand.adapters c = adapters_array l -> includes l ADAPTER_NAME = false ->
  execute Commands response c = returned response.
Proof. unfold execute. simpl. intros -> ->. reflexivity. Qed.

(** A command without [adapters] runs the handler registered for its name. *)
Lemma execute_unspecified (response : Response) (c : ICommand.t) (handler : CommandHandler) :
  ICommand.adapters c = adapters_absent ->
  Commands (ICommand.name c) = Some handler ->
  execute Commands response c = handler response (ICommand.payload c).
Proof. unfold execute. simpl. intros -> ->. reflexivity. Qed.

(** So does a command whose [adapters] is this adapter's name itself. *)
Lemma execute_named (response : Response) (c : ICommand.t) (handler : CommandHandler) :
  ICommand.adapters c = adapters_name ADAPTER_NAME ->
  Commands (ICommand.name c) = Some handler ->
  execute Commands response c = handler response (ICommand.payload c).
Proof. unfold execute. simpl. intros -> ->. reflexivity. Qed.

(** A name under which the registry has nothing is ignored. *)
Lemma execute_unknown (response : Response) (c : ICommand.t) :
  Commands (ICommand.name c) = None ->
  execute Commands response c = returned response.
Proof.
  unfold execute. simpl. intros ->.
  destruct (ICommand.adapters c) as [| s | l]; simpl.
  - reflexivity.
  - by destruct (String.eqb s ADAPTER_NAME).
  - by destruct (negb (includes l ADAPTER_NAME)).
Qed.

End Executor.

(** C1: a command whose [adapters] is an array never reaches its registry
    handler, whatever the array holds: without this adapter's name the
    command is skipped, and with it the command passes the first test and
    then fails the comparison of the array with the name. The command
    [setHeader] of the built-in registry, sent with [adapters: ["Express"]],
    sets no header, while the same command without [adapters] sets it. *)
Theorem applyCommandsToResponse_adapters_array :
  (forall Commands response name l payload,
      applyCommandsToResponse Commands response
        (Command {| ICommand.name := name; ICommand.adapters := adapters_array l;
                    ICommand.payload := payload |}) = returned response) /\
  includes ["Express"] ADAPTER_NAME = true /\
  ExpressCommands "setHeader" = Some Commands_setHeader /\
  applyCommandsToResponse ExpressCommands []
    (Command (set_test_header (adapters_array ["Express"]))) = returned [] /\
  applyCommandsToResponse ExpressCommands []
    (Command (set_test_header adapters_absent)) = returned [setHeader "X-Test" (JStr "1")].
Proof.
  split; [| by vm_compute].
  intros Commands response name l payload. simpl.
  by destruct (negb (includes l ADAPTER_NAME)).
Qed.

(** C3, as the code has it: [SendResponse] first runs the executor over the
    commands, when there are any, which amounts to running the flattened
    list in order; when that run returns, it sets the exit-code header,
    then the status, then it sends the payload; when a command raises,
    [SendResponse] ends there and writes none of the three. For exit code
    7, status 200 and payload [{ok: true}] the response carries the header
    with 7, status 200 and that body; a list of lists of commands is
    executed, not refused. *)
Theorem SendResponse_materializes_after_commands :
  (forall Commands routeResp response,
      SendResponse Commands routeResp response =
      and_then
        (run_each (execute Commands)
           (match IApiRouteResponse.commands routeResp with
            | Some commands => flatten commands
            | None => []
            end) response)
        (fun response =>
           returned
             (response ++
              [setHeader "X-Exit-Code" (JNum (IApiRouteResponse.exitCode routeResp));
               status (IApiRouteResponse.status routeResp);
               send (IApiRouteResponse.payload routeResp)]))) /\
  SendResponse ExpressCommands (exit_code_7 None) [] =
    returned [setHeader "X-Exit-Code" (JNum 7); status 200;
              send (JObj [("ok", JBool true)])] /\
  (let sent := outgoing (written (SendResponse ExpressCommands (exit_code_7 None) [])) in
   statusCode sent = Some 200%Z /\
   outgoing_body sent = Some (JObj [("ok", JBool true)])) /\
  SendResponse ExpressCommands (exit_code_7 (Some nested_commands)) [] =
    returned
      [setHeader "X-Test" (JStr "1");
       cookie "session" (JStr "abc") (JObj [("value", JStr "abc"); ("httpOnly", JBool true)]);
       setHeader "X-Exit-Code" (JNum 7); status 200; send (JObj [("ok", JBool true)])].
Proof.
  split; [| by vm_compute].
  intros Commands routeResp response. unfold SendResponse.
  destruct (IApiRouteResponse.commands routeResp) as [commands |].
  - rewrite applyCommandsToResponse_flatten.
    destruct (run_each _ _ _) as [r | r e]; [| done].
    simpl. by rewrite <- !app_assoc.
  - simpl. by rewrite <- !app_assoc.
Qed.

(** C3, as the claim has it, fails on a response one of whose commands
    raises: under the name [__proto__] the lookup in the registry finds the
    prototype of the registry object, which cannot be called, and the
    [setCookie] handler cannot read the value of a [null] entry. Neither
    the exit-code header nor the status nor the body is written. *)
Lemma SendResponse_raising_command :
  let by_name := exit_code_7 (Some (Command (command_named "__proto__" (JObj [])))) in
  let by_entry :=
    exit_code_7 (Some (Command (command_named "setCookie" cookies_with_null))) in
  (exists thrown, SendResponse ExpressCommands by_name [] = threw [] thrown) /\
  (exists thrown,
      SendResponse ExpressCommands by_entry [] =
      threw [cookie "first" (JStr "1") (JObj [("value", JStr "1")])] thrown) /\
  ~ In (setHeader "X-Exit-Code" (JNum 7))
       (written (SendResponse ExpressCommands by_name [])) /\
  ~ In (setHeader "X-Exit-Code" (JNum 7))
       (written (SendResponse ExpressCommands by_entry [])).
Proof.
  cbv zeta. split; [by eexists |]. split; [by eexists |].
  split; [vm_compute; tauto |]. vm_compute. intros [H | []]. discriminate H.
Qed.

(** ** The Error Translator *)

(** C4: for a recognized API error the translator sets the error's status
    and sends [{error: message}] without calling the continuation; any
    other error goes to the continuation and nothing is written. *)
Theorem ErrorHandler_translates :
  (forall response httpStatus message,
      ErrorHandler response (ApiError httpStatus message) =
      response ++ [status httpStatus; send (JObj [("error", JStr message)])]) /\
  (forall response constructor_name message,
      ErrorHandler response (OtherError constructor_name message) =
      response ++ [next (OtherError constructor_name message)]) /\
  (let sent := outgoing (ErrorHandler [] (ApiError 404 "not found")) in
   statusCode sent = Some 404%Z /\
   outgoing_body sent = Some (JObj [("error", JStr "not found")]) /\
   forwarded sent = []) /\
  (let sent := outgoing (ErrorHandler [] (OtherError "TypeError" "x is undefined")) in
   statusCode sent = None /\ outgoing_body sent = None /\
   forwarded sent = [OtherError "TypeError" "x is undefined"]).
Proof.
  split; [| split; [| by vm_compute]].
  - intros response httpStatus message. simpl. by rewrite <- app_assoc.
  - reflexivity.
Qed.

(** ** The route table *)

Section RouteTable.

Lemma url_by_spec_correct (u : string) :
  (if negb (String.eqb (charAt0 (trim u)) "/") then "/" +:+ trim u else trim u) =
  url_by_spec u.
Proof.
  unfold url_by_spec. destruct (trim u) as [| c rest]; [done |].
  simpl. by destruct (Ascii.eqb c "/").
Qed.

Lemma addRouteToHttpMethod_eq method route a :
  addRouteToHttpMethod method route a =
  emit (emit_route_method REQUEST route method)
    (emit (emit_route (registration_event method) route)
       (set_express (bind (binding_of route method) (express a)) a)).
Proof.
  unfold addRouteToHttpMethod, binding_of, express_bind.
  rewrite url_by_spec_correct. by destruct method.
Qed.

Lemma add_methods_loadedRoutes route methods : forall a,
  _loadedRoutes (fold_left (fun a method => addRouteToHttpMethod method route a) methods a) =
  _loadedRoutes a.
Proof.
  induction methods as [| m methods IH]; intros a; [done |].
  cbn [fold_left]. by rewrite IH, addRouteToHttpMethod_eq.
Qed.

Lemma add_methods_bindings route methods : forall a,
  bindings (express (fold_left (fun a method => addRouteToHttpMethod method route a) methods a)) =
  bindings (express a) ++ map (binding_of route) methods.
Proof.
  induction methods as [| m methods IH]; intros a; cbn [fold_left map].
  - by rewrite app_nil_r.
  - rewrite IH, addRouteToHttpMethod_eq. simpl. by rewrite <- app_assoc.
Qed.

Lemma loadRoute_loaded a route :
  includes_route (_loadedRoutes a) route = true -> loadRoute a route = a.
Proof. unfold loadRoute. by intros ->. Qed.

Lemma loadRoute_loadedRoutes a route :
  _loadedRoutes (loadRoute a route) =
  if includes_route (_loadedRoutes a) route then _loadedRoutes a
  else _loadedRoutes a ++ [route].
Proof.
  unfold loadRoute. destruct (includes_route (_loadedRoutes a) route); [done |].
  simpl. by rewrite add_methods_loadedRoutes.
Qed.

Lemma loadRoute_bindings a route :
  bindings (express (loadRoute a route)) =
  if includes_route (_loadedRoutes a) route then bindings (express a)
  else bindings (express a) ++ map (binding_of route) (method_list route).
Proof.
  unfold loadRoute. destruct (includes_route (_loadedRoutes a) route); [done |].
  simpl. by rewrite add_methods_bindings.
Qed.

Lemma includes_ref_app l1 l2 k :
  includes_ref (l1 ++ l2) k = includes_ref l1 k || includes_ref l2 k.
Proof. apply existsb_app. Qed.

Lemma loadRoutesFromContainers_all_routes containers : forall a,
  loadRoutesFromContainers containers a = fold_left loadRoute (all_routes containers) a.
Proof.
  unfold loadRoutesFromContainers, all_routes.
  induction containers as [| c containers IH]; intros a; simpl; [done |].
  by rewrite fold_left_app, IH.
Qed.

(** Loading only appends to [_loadedRoutes]. *)
Lemma load_appends routes : forall a,
  exists added,
    _loadedRoutes (fold_left loadRoute routes a) = _loadedRoutes a ++ added.
Proof.
  induction routes as [| r routes IH]; intros a; simpl.
  - exists []. by rewrite app_nil_r.
  - destruct (IH (loadRoute a r)) as [added ->]. rewrite loadRoute_loadedRoutes.
    destruct (includes_route (_loadedRoutes a) r).
    + by exists added.
    + exists (r :: added). by rewrite <- app_assoc.
Qed.

Lemma load_keeps routes a k :
  includes_ref (_loadedRoutes a) k = true ->
  includes_ref (_loadedRoutes (fold_left loadRoute routes a)) k = true.
Proof.
  intros H. destruct (load_appends routes a) as [added ->].
  by rewrite includes_ref_app, H.
Qed.

Lemma loadRoute_includes a route :
  includes_route (_loadedRoutes (loadRoute a route)) route = true.
Proof.
  rewrite loadRoute_loadedRoutes.
  destruct (includes_route (_loadedRoutes a) route) eqn:E; [done |].
  unfold includes_route. rewrite existsb_app. simpl.
  by rewrite Nat.eqb_refl, orb_true_r.
Qed.

Lemma load_includes routes : forall a route,
  In route routes ->
  includes_route (_loadedRoutes (fold_left loadRoute routes a)) route = true.
Proof.
  induction routes as [| r routes IH]; intros a route Hin; [done |].
  simpl. destruct Hin as [-> | Hin].
  - apply (load_keeps routes (loadRoute a route) (IProxiedRoute.ref route)).
    apply loadRoute_includes.
  - by apply IH.
Qed.

Lemma load_loaded routes : forall a,
  (forall route, In route routes -> includes_route (_loadedRoutes a) route = true) ->
  fold_left loadRoute routes a = a.
Proof.
  induction routes as [| r routes IH]; intros a H; [done |].
  simpl. rewrite loadRoute_loaded by (apply H; by left).
  apply IH. intros route Hin. apply H. by right.
Qed.

Lemma load_twice routes a :
  fold_left loadRoute routes (fold_left loadRoute routes a) = fold_left loadRoute routes a.
Proof. apply load_loaded. intros route Hin. by apply load_includes. Qed.

Lemma filter_binding_of_same route methods :
  List.filter (fun b => Nat.eqb (IProxiedRoute.ref (bound_route b)) (IProxiedRoute.ref route))
    (map (binding_of route) methods) = map (binding_of route) methods.
Proof.
  induction methods as [| m methods IH]; simpl; [done |].
  by rewrite Nat.eqb_refl, IH.
Qed.

Lemma filter_binding_of_other route methods k :
  Nat.eqb (IProxiedRoute.ref route) k = false ->
  List.filter (fun b => Nat.eqb (IProxiedRoute.ref (bound_route b)) k)
    (map (binding_of route) methods) = [].
Proof.
  intros H. induction methods as [| m methods IH]; simpl; [done |]. by rewrite H.
Qed.

(** The bindings of one descriptor after loading a list of routes: those it
    had, and, if it was not loaded and is among the routes, one for each of
    its method tags. *)
Lemma load_bindings_of k routes : forall a,
  bindings_of k (fold_left loadRoute routes a) =
  bindings_of k a ++
  if includes_ref (_loadedRoutes a) k then []
  else match find_route k routes with
       | Some route => map (binding_of route) (method_list route)
       | None => []
       end.
Proof.
  induction routes as [| r routes IH]; intros a; simpl.
  - destruct (includes_ref (_loadedRoutes a) k); by rewrite app_nil_r.
  - rewrite IH. unfold bindings_of at 1.
    rewrite loadRoute_bindings, loadRoute_loadedRoutes.
    change (includes_route (_loadedRoutes a) r)
      with (includes_ref (_loadedRoutes a) (IProxiedRoute.ref r)).
    destruct (Nat.eqb (IProxiedRoute.ref r) k) eqn:Ek.
    + apply Nat.eqb_eq in Ek. subst k.
      destruct (includes_ref (_loadedRoutes a) (IProxiedRoute.ref r)) eqn:Ein.
      * by rewrite Ein.
      * rewrite includes_ref_app. simpl. rewrite Nat.eqb_refl, orb_true_r.
        rewrite Stdlib.Lists.List.filter_app, filter_binding_of_same.
        by rewrite app_nil_r.
    + destruct (includes_ref (_loadedRoutes a) (IProxiedRoute.ref r)) eqn:Ein; [done |].
      rewrite includes_ref_app. simpl. rewrite Ek, orb_false_r.
      rewrite Stdlib.Lists.List.filter_app, filter_binding_of_other by done.
      by rewrite app_nil_r.
Qed.

Lemma assign_app (l : list IProxiedRoute.t) (r : IProxiedRoute.t) (loaded : RoutesByURL) :
  fold_left assign (l ++ [r]) loaded = assign (fold_left assign l loaded) r.
Proof. by rewrite fold_left_app. Qed.

(** Under a key other than [__proto__] the object has the route assigned
    last under that key. *)
Lemma loadedRoutes_lookup (l : list IProxiedRoute.t) (u : string) :
  String.eqb u "__proto__" = false ->
  forall loaded : RoutesByURL,
    own_entries (fold_left assign l loaded) !! u =
    match List.find (fun r => String.eqb (IProxiedRoute.url r) u) (rev l) with
    | Some route => Some route
    | None => own_entries loaded !! u
    end.
Proof.
  intros Hu. induction l as [| r l IH] using rev_ind; intros loaded; [done |].
  rewrite assign_app, rev_app_distr. simpl. unfold assign.
  destruct (String.eqb (IProxiedRoute.url r) "__proto__") eqn:Ep; simpl.
  - apply String.eqb_eq in Ep.
    destruct (String.eqb (IProxiedRoute.url r) u) eqn:E; [| apply IH].
    apply String.eqb_eq in E. rewrite <- E, Ep in Hu. discriminate Hu.
  - destruct (String.eqb (IProxiedRoute.url r) u) eqn:E.
    + apply String.eqb_eq in E. subst u. apply lookup_insert_eq.
    + apply String.eqb_neq in E. rewrite lookup_insert_ne by done. apply IH.
Qed.

(** No assignment makes an entry under [__proto__]. *)
Lemma loadedRoutes_proto_key (l : list IProxiedRoute.t) : forall loaded : RoutesByURL,
  own_entries (fold_left assign l loaded) !! "__proto__" = own_entries loaded !! "__proto__".
Proof.
  induction l as [| r l IH] using rev_ind; intros loaded; [done |].
  rewrite assign_app. unfold assign.
  destruct (String.eqb (IProxiedRoute.url r) "__proto__") eqn:Ep; simpl; [apply IH |].
  apply String.eqb_neq in Ep. rewrite lookup_insert_ne by done. apply IH.
Qed.

(** The prototype is the route assigned last under [__proto__]. *)
Lemma loadedRoutes_prototype (l : list IProxiedRoute.t) : forall loaded : RoutesByURL,
  prototype (fold_left assign l loaded) =
  match List.find (fun r => String.eqb (IProxiedRoute.url r) "__proto__") (rev l) with
  | Some route => Some route
  | None => prototype loaded
  end.
Proof.
  induction l as [| r l IH] using rev_ind; intros loaded; [done |].
  rewrite assign_app, rev_app_distr. simpl. unfold assign.
  destruct (String.eqb (IProxiedRoute.url r) "__proto__"); simpl; [done | apply IH].
Qed.

Lemma find_url_none (l : list IProxiedRoute.t) (u : string) :
  (forall route, In route l -> IProxiedRoute.url route <> u) ->
  List.find (fun r => String.eqb (IProxiedRoute.url r) u) (rev l) = None.
Proof.
  intros H. destruct (List.find _ _) as [r |] eqn:E; [| done].
  apply find_some in E as [Hin Hurl]. apply in_rev in Hin.
  apply String.eqb_eq in Hurl. by destruct (H r Hin).
Qed.

(** The entries of [loadedRoutes()] when no loaded route has the URL
    [__proto__]. *)
Lemma loadedRoutes_entries (a : Adapter) (u : string) :
  (forall route, In route (_loadedRoutes a) -> IProxiedRoute.url route <> "__proto__") ->
  loadedRoutes a !! u =
  List.find (fun r => String.eqb (IProxiedRoute.url r) u) (rev (_loadedRoutes a)).
Proof.
  intros H. unfold lookup, RoutesByURL_lookup, loadedRoutes.
  destruct (String.eqb u "__proto__") eqn:Eu.
  - apply String.eqb_eq in Eu. subst u.
    by rewrite loadedRoutes_proto_key, (find_url_none _ _ H).
  - rewrite (loadedRoutes_lookup _ _ Eu). by destruct (List.find _ _).
Qed.

End RouteTable.

(** C5: loading the routes of the same containers a second time changes
    nothing: the adapter after the second load is the adapter after the
    first, so [loadedRoutes()] has as many entries; and after both loads a
    descriptor has the bindings it had before plus, if it was not loaded and
    is among the routes, exactly one binding for each of its method tags. *)
Theorem loadRoutesFromContainers_idempotent (containers : list IContainer.t) (a : Adapter) :
  let once := loadRoutesFromContainers containers a in
  let twice := loadRoutesFromContainers containers once in
  twice = once /\
  size (loadedRoutes twice) = size (loadedRoutes once) /\
  forall k,
    bindings_of k twice =
    bindings_of k a ++
    if includes_ref (_loadedRoutes a) k then []
    else match find_route k (all_routes containers) with
         | Some route => map (binding_of route) (method_list route)
         | None => []
         end.
Proof.
  simpl. rewrite !loadRoutesFromContainers_all_routes, load_twice.
  split; [done | split; [done |]]. intros k. apply load_bindings_of.
Qed.



Lemma load_bindings_In routes : forall a b,
  In b (bindings (express (fold_left loadRoute routes a))) ->
  In b (bindings (express a)) \/ exists route method, b = binding_of route method.
Proof.
  induction routes as [| r routes IH]; intros a b Hin; [by left |].
  simpl in Hin. apply IH in Hin as [Hin | Hnew]; [| by right].
  rewrite loadRoute_bindings in Hin.
  destruct (includes_route (_loadedRoutes a) r); [by left |].
  apply in_app_iff in Hin as [Hin | Hin]; [by left |].
  apply in_map_iff in Hin as (m & <- & _). right. by exists r, m.
Qed.

(** C10: [addRouteToHttpMethod] binds the route under its URL trimmed, with
    a slash put in front when the trimmed URL does not begin with one and
    unchanged otherwise; so every binding that loading containers adds has
    that URL of its route as its path. *)
Theorem addRouteToHttpMethod_url :
  (forall method route a,
      bindings (express (addRouteToHttpMethod method route a)) =
      bindings (express a) ++
      [{| verb := method;
          path := if begins_with_slash (trim (IProxiedRoute.url route))
                  then trim (IProxiedRoute.url route)
                  else "/" +:+ trim (IProxiedRoute.url route);
          bound_route := route; bound_method := method |}]) /\
  (forall containers a b,
      In b (bindings (express (loadRoutesFromContainers containers a))) ->
      In b (bindings (express a)) \/
      path b = url_by_spec (IProxiedRoute.url (bound_route b))).
Proof.
  split.
  - intros method route a. by rewrite addRouteToHttpMethod_eq.
  - intros containers a b. rewrite loadRoutesFromContainers_all_routes.
    intros [Hin | (route & m & ->)]%load_bindings_In; [by left | by right].
Qed.

Lemma addRouteToHttpMethod_url_witness :
  (In (binding_of users_route post) [] \/
   path (binding_of users_route post) = "/users") /\
  (In (binding_of health_route all) [] \/
   path (binding_of health_route all) = "/health").
Proof.
  split.
  - apply (proj2 addRouteToHttpMethod_url [api_container] (new_Adapter None)
             (binding_of users_route post)).
    vm_compute. right. left. reflexivity.
  - apply (proj2 addRouteToHttpMethod_url [api_container] (new_Adapter None)
             (binding_of health_route all)).
    vm_compute. do 2 right. left. reflexivity.
Defined.

(** ** The lifecycle of the listener *)

Section Lifecycle.

Lemma add_methods_listener route methods : forall a,
  listener_fields (fold_left (fun a method => addRouteToHttpMethod method route a) methods a) =
  listener_fields a.
Proof.
  induction methods as [| m methods IH]; intros a; [done |].
  cbn [fold_left]. by rewrite IH, addRouteToHttpMethod_eq.
Qed.

Lemma loadRoute_listener a route : listener_fields (loadRoute a route) = listener_fields a.
Proof.
  unfold loadRoute. destruct (includes_route (_loadedRoutes a) route); [done |].
  rewrite <- (add_methods_listener route (method_list route) a). reflexivity.
Qed.

Lemma load_listener routes : forall a,
  listener_fields (fold_left loadRoute routes a) = listener_fields a.
Proof.
  induction routes as [| r routes IH]; intros a; simpl; [done |].
  by rewrite IH, loadRoute_listener.
Qed.

(** Booting does not touch the listener. *)
Lemma boot_listener a : listener_fields (boot a) = listener_fields a.
Proof.
  unfold boot. destruct (_booted a); [done |].
  change (listener_fields (set_booted true ?x)) with (listener_fields x).
  by rewrite loadRoutesFromContainers_all_routes, load_listener.
Qed.

Lemma start_servers a :
  servers (start a) = servers a ++ [listen (List.length (servers a)) (_port a)].
Proof.
  pose proof (boot_listener a) as H. unfold listener_fields in H.
  injection H as Hservers Hport _ _. unfold start. simpl.
  by rewrite Hservers, Hport.
Qed.

Lemma start_server a : _server (start a) = Some (List.length (servers a)).
Proof.
  pose proof (boot_listener a) as H. unfold listener_fields in H.
  injection H as Hservers _ _ _. unfold start. simpl. by rewrite Hservers.
Qed.

End Lifecycle.

(** C8: [stop()] on an adapter that is not started leaves it as it is. After
    [start()], which opens a listener, [stop()] closes that listener with
    one call and clears the started flag, and a [stop()] right after that
    changes nothing. *)
Theorem stop_after_start (a : Adapter) :
  (_started a = false -> stop a = a) /\
  (let server := List.length (servers a) in
   servers (start a) = servers a ++ [listen server (_port a)] /\
   _started (start a) = true /\
   servers (stop (start a)) = servers (start a) ++ [close server] /\
   _started (stop (start a)) = false /\
   stop (stop (start a)) = stop (start a)).
Proof.
  split.
  - unfold stop. by intros ->.
  - cbv zeta. split; [apply start_servers |]. split; [reflexivity |].
    assert (Hstop : stop (start a) =
                    set_started false
                      (set_servers (servers (start a) ++ [close (List.length (servers a))])
                                   (start a))).
    { unfold stop. rewrite start_server. reflexivity. }
    rewrite Hstop. split; [reflexivity |]. split; reflexivity.
Qed.

Lemma stop_after_start_witness :
  stop (new_Adapter None) = new_Adapter None /\
  servers (stop (start (new_Adapter None))) = [listen 0 3000; close 0] /\
  stop (stop (start (new_Adapter None))) = stop (start (new_Adapter None)).
Proof.
  destruct (stop_after_start (new_Adapter None)) as [Hidle (_ & _ & Hclose & _ & Hagain)].
  split; [apply Hidle; reflexivity |]. split; [exact Hclose | exact Hagain].
Defined.

(** ** The orchestration of a request *)

(** With a business handler, every continuation it calls is answered: a
    response by [_sendResponse] and the response event, an error by
    [_errorHandler] and the error event. *)
Lemma requestHandler_with_handler RequestFlowNotDefined a route method request response
    (handler : ApiHandler) :
  _apiHandler a = Some handler ->
  let run := _requestHandler RequestFlowNotDefined a route method request response in
  apiRequest run = set_method method (_transformRequest a request) /\
  (run_adapter run, run_response run) =
    fold_left (continue_with route request) (handler route (apiRequest run)) (a, response) /\
  outcome run = fulfilled.
Proof.
  intros H. unfold _requestHandler. rewrite H. simpl.
  by destruct (fold_left _ _ _).
Qed.

(** C6: without a business handler the request handler reports the
    "request flow not defined" error through the error handler and emits
    the error event, and then goes on: it normalizes the request, stamps
    the method on it and calls the handler that is not there, which ends
    the run with a [TypeError]. *)
Theorem requestHandler_without_handler
    (RequestFlowNotDefined : string -> error) (a : Adapter) (route : IProxiedRoute.t)
    (method : HTTPMethod) (request : Request) (response : Response) :
  _apiHandler a = None ->
  let run := _requestHandler RequestFlowNotDefined a route method request response in
  let e := no_handler_error RequestFlowNotDefined in
  run_response run = _errorHandler a response e /\
  emitted (run_adapter run) = emitted a ++ [emit_error REQUEST_ERROR e route request] /\
  apiRequest run = set_method method (_transformRequest a request) /\
  outcome run = rejected (OtherError "TypeError" "this._apiHandler is not a function").
Proof. intros H. unfold _requestHandler. rewrite H. by repeat split. Qed.

Lemma requestHandler_without_handler_witness :
  let run := _requestHandler (OtherError "RequestFlowNotDefined") (new_Adapter None)
               health_route get_ request_without_user_agent [] in
  run_response run = [next (no_handler_error (OtherError "RequestFlowNotDefined"))] /\
  req_method (apiRequest run) = Some get_ /\
  identification (apiRequest run) = JStr "10.0.0.1 - 10.0.0.2 | undefined" /\
  outcome run = rejected (OtherError "TypeError" "this._apiHandler is not a function").
Proof.
  destruct (requestHandler_without_handler (OtherError "RequestFlowNotDefined")
              (new_Adapter None) health_route get_ request_without_user_agent []
              eq_refl) as (Hresponse & _ & Hrequest & Houtcome).
  cbv zeta. split; [exact Hresponse |]. rewrite Hrequest.
  split; [reflexivity |]. split; [reflexivity | exact Houtcome].
Defined.

(** * Further properties *)

(** ** The built-in commands *)

Section BuiltInCommands.

Lemma setCookie_all (props : object) (names : list string) : forall response,
  Forall (fun k => nullish (get props k) = false) names ->
  run_each (setCookie_body (JObj props)) names response =
  returned (response ++ cookie_calls props names).
Proof.
  induction names as [| k names IH]; intros response H.
  - simpl. by rewrite app_nil_r.
  - inversion H as [| ? ? Hk Hrest]; subst.
    cbn [run_each]. unfold setCookie_body at 1, member at 1. simpl props_of.
    rewrite Hk. cbn [and_then]. rewrite (IH _ Hrest).
    unfold cookie_calls, member. simpl. by rewrite <- app_assoc.
Qed.

Lemma setCookie_until (props : object) (before : list string) (k : string)
    (after : list string) : forall response,
  Forall (fun k => nullish (get props k) = false) before ->
  nullish (get props k) = true ->
  run_each (setCookie_body (JObj props)) (before ++ k :: after) response =
  threw (response ++ cookie_calls props before)
    (OtherError "TypeError" "Cannot read properties of null or undefined (reading 'value')").
Proof.
  induction before as [| k0 before IH]; intros response H Hk.
  - cbn [app run_each]. unfold setCookie_body at 1, member at 1. simpl props_of.
    rewrite Hk. simpl. by rewrite app_nil_r.
  - inversion H as [| ? ? Hk0 Hrest]; subst.
    cbn [app run_each]. unfold setCookie_body at 1, member at 1. simpl props_of.
    rewrite Hk0. cbn [and_then]. rewrite (IH _ Hrest Hk).
    unfold cookie_calls, member. simpl. by rewrite <- app_assoc.
Qed.

End BuiltInCommands.

(** X2: the [setCookie] command calls [response.cookie] once for every
    name of its payload, in order, with the [value] member of the entry as
    the cookie's value and the whole entry as its options, as long as the
    entries are neither [null] nor [undefined]; at the first entry that is,
    it raises: the cookies before it are set, that one and the later ones
    are not. *)
Theorem setCookie_sets_cookies_until_null (response : Response) (props : object) :
  (Forall (fun k => nullish (get props k) = false) (map fst props) ->
   Commands_setCookie response (JObj props) =
   returned (response ++ cookie_calls props (map fst props))) /\
  (forall before k after,
      map fst props = before ++ k :: after ->
      Forall (fun k => nullish (get props k) = false) before ->
      nullish (get props k) = true ->
      exists thrown,
        Commands_setCookie response (JObj props) =
        threw (response ++ cookie_calls props before) thrown).
Proof.
  unfold Commands_setCookie, for_in. simpl props_of. split.
  - apply setCookie_all.
  - intros before k after -> Hbefore Hk. eexists. by apply setCookie_until.
Qed.

Lemma setCookie_sets_cookies_until_null_witness :
  Commands_setCookie []
    (JObj [("session", JObj [("value", JStr "abc"); ("httpOnly", JBool true)])]) =
    returned
      [cookie "session" (JStr "abc") (JObj [("value", JStr "abc"); ("httpOnly", JBool true)])] /\
  exists thrown,
    Commands_setCookie [] cookies_with_null =
    threw [cookie "first" (JStr "1") (JObj [("value", JStr "1")])] thrown.
Proof.
  split.
  - apply (proj1 (setCookie_sets_cookies_until_null []
                    [("session", JObj [("value", JStr "abc"); ("httpOnly", JBool true)])])).
    repeat constructor.
  - apply (proj2 (setCookie_sets_cookies_until_null []
                    [("first", JObj [("value", JStr "1")]); ("second", JNull);
                     ("third", JObj [("value", JStr "3")])])
             ["first"] "second" ["third"]).
    + reflexivity.
    + repeat constructor.
    + reflexivity.
Defined.

(** ** More on the Command Executor and the Response Materializer *)

Section ExecutorFurther.

Variable Commands : string -> option CommandHandler.

Lemma execute_addressed (response : Response) (c : ICommand.t) :
  execute Commands response c =
  if addressed c then run_handler Commands response c else returned response.
Proof.
  unfold execute, addressed, run_handler. simpl.
  destruct (ICommand.adapters c) as [| s | l]; simpl; [done | done |].
  by destruct (negb (includes l ADAPTER_NAME)).
Qed.

Lemma run_each_execute_addressed (l : list ICommand.t) : forall response,
  run_each (execute Commands) l response =
  run_each (run_handler Commands) (List.filter addressed l) response.
Proof.
  induction l as [| c l IH]; intros response; [done |].
  cbn [run_each List.filter]. rewrite execute_addressed.
  destruct (addressed c); cbn [run_each and_then]; [| apply IH].
  destruct (run_handler Commands response c) as [r | r e]; [apply IH | done].
Qed.

Lemma flatten_app (l1 l2 : list commands_arg) :
  flatten (CommandArray (l1 ++ l2)) = flatten (CommandArray l1) ++ flatten (CommandArray l2).
Proof.
  induction l1 as [| c l1 IH]; [done |].
  change ((c :: l1) ++ l2) with (c :: (l1 ++ l2)).
  by rewrite !flatten_cons, IH, <- app_assoc.
Qed.

End ExecutorFurther.

(** X3: of a command list, however nested, the executor runs the commands
    whose [adapters] is left out or is the name of this adapter, in the
    order of the list, each through the member the registry has under its
    name, until one of them raises; the other commands are passed over, and
    a name under which the registry has nothing changes nothing. *)
Theorem applyCommandsToResponse_runs_addressed
    (Commands : string -> option CommandHandler) (response : Response)
    (commands : commands_arg) :
  applyCommandsToResponse Commands response commands =
  run_each (run_handler Commands) (List.filter addressed (flatten commands)) response.
Proof. by rewrite applyCommandsToResponse_flatten, run_each_execute_addressed. Qed.

(** X4: executing an array of commands made of two parts is executing the
    first part and then, if that returned, the second on the response the
    first left; an array around a single item makes no difference. *)
Theorem applyCommandsToResponse_app
    (Commands : string -> option CommandHandler) (response : Response)
    (l1 l2 : list commands_arg) (item : commands_arg) :
  applyCommandsToResponse Commands response (CommandArray (l1 ++ l2)) =
    and_then (applyCommandsToResponse Commands response (CommandArray l1))
      (fun response => applyCommandsToResponse Commands response (CommandArray l2)) /\
  applyCommandsToResponse Commands response (CommandArray [item]) =
    applyCommandsToResponse Commands response item.
Proof.
  split.
  - rewrite !applyCommandsToResponse_flatten, flatten_app, run_each_app.
    destruct (run_each _ (flatten (CommandArray l1)) response) as [r | r e]; [| done].
    cbn [and_then]. symmetry. apply applyCommandsToResponse_flatten.
  - rewrite applyCommandsToResponse_cons.
    by destruct (applyCommandsToResponse Commands response item).
Qed.

(** X5: the command that [Adapter.CreateCookie] builds is never executed by
    this adapter: its [adapters] is an array, so the executor passes it
    over whatever the registry holds, alone or inside a list; and the
    built-in registry has no handler named ['create-cookie'] either. *)
Theorem CreateCookie_is_not_executed
    (Commands : string -> option CommandHandler) (response : Response)
    (name value : string) (options : object) (before after : list commands_arg) :
  applyCommandsToResponse Commands response (Command (CreateCookie name value options)) =
    returned response /\
  applyCommandsToResponse Commands response
    (CommandArray (before ++ [Command (CreateCookie name value options)] ++ after)) =
    applyCommandsToResponse Commands response (CommandArray (before ++ after)) /\
  ExpressCommands (ICommand.name (CreateCookie name value options)) = None.
Proof.
  split; [reflexivity |]. split; [| reflexivity].
  rewrite !applyCommandsToResponse_flatten, !run_each_execute_addressed, !flatten_app.
  by rewrite !Stdlib.Lists.List.filter_app.
Qed.

(** X22: a command for this adapter named after one of the members
    [__proto__], [__defineGetter__] and [__defineSetter__], which the
    registry object inherits, is not ignored as an unknown command: calling
    the member raises, whatever the payload, and nothing is written. A name
    under which the registry object has no member at all is ignored. *)
Theorem execute_inherited_member (response : Response) (c : ICommand.t) :
  (addressed c = true -> In (ICommand.name c) raising_members ->
   exists thrown, execute ExpressCommands response c = threw response thrown) /\
  (ExpressCommands (ICommand.name c) = None ->
   execute ExpressCommands response c = returned response).
Proof.
  split; [| apply execute_unknown].
  intros Ha Hin. rewrite execute_addressed, Ha. unfold run_handler.
  destruct Hin as [<- | [<- | [<- | []]]]; by eexists.
Qed.

Lemma execute_inherited_member_witness :
  (exists thrown,
      execute ExpressCommands [status 200]
        (command_named "__defineGetter__" (JObj [("X-Test", JStr "1")])) =
      threw [status 200] thrown) /\
  execute ExpressCommands [status 200] (command_named "setFooter" JNull) =
    returned [status 200].
Proof.
  split.
  - apply (proj1 (execute_inherited_member [status 200]
                    (command_named "__defineGetter__" (JObj [("X-Test", JStr "1")]))));
      [reflexivity |].
    simpl. right. by left.
  - apply (proj2 (execute_inherited_member [status 200] (command_named "setFooter" JNull))).
    reflexivity.
Defined.

(** ** More on the Request Normalizer *)

Lemma TransformRequest_identification_with_user_agent_witness :
  identification (TransformRequest request_with_user_agent) = JStr " | curl/8.0".
Proof.
  apply (TransformRequest_identification_with_user_agent request_with_user_agent "curl/8.0").
  reflexivity.
Defined.

Lemma add_all_header_fields (o : object) (origin : string) (req : RouteRequest) :
  adapter (add_all o origin req) = adapter req /\
  req_url (add_all o origin req) = req_url req /\
  req_method (add_all o origin req) = req_method req.
Proof. unfold add_all. by rewrite add_all_fold. Qed.

(** X8: the Canonical Request names this adapter, keeps the original URL
    and has no method yet (the request handler stamps it); its parameter
    bag holds the headers first, then the cookies, the body fields, the
    query parameters and the URL parameters, each group in the order of
    enumeration, so it has one entry for every key of the five objects. *)
Theorem TransformRequest_shape (request : Request) :
  let req := TransformRequest request in
  adapter req = "Express" /\
  req_url req = originalUrl request /\
  req_method req = None /\
  parameters req =
    entries (headers request) "header" ++ entries (cookies request) "cookie" ++
    entries (body request) "body" ++ entries (query request) "query" ++
    entries (params request) "url" /\
  List.length (parameters req) =
    (List.length (headers request) + List.length (cookies request) +
     List.length (body request) + List.length (query request) +
     List.length (params request))%nat.
Proof.
  cbv zeta. rewrite TransformRequest_parameters. unfold TransformRequest.
  repeat match goal with
         | |- context [add_all ?o ?origin ?req] =>
             destruct (add_all_header_fields o origin req) as (-> & -> & ->)
         end.
  split; [done |]. split; [done |]. split; [done |]. split; [done |].
  unfold entries. rewrite !length_app, !length_map. lia.
Qed.

(** ** More on the route table *)

Section RouteTableFurther.

Lemma add_methods_untouched route methods : forall a,
  let a' := fold_left (fun a method => addRouteToHttpMethod method route a) methods a in
  untouched_by_loading a' = untouched_by_loading a /\ collaborators a' = collaborators a.
Proof.
  induction methods as [| m methods IH]; intros a; [done |].
  cbv zeta in *. cbn [fold_left].
  destruct (IH (addRouteToHttpMethod m route a)) as [-> ->].
  by rewrite addRouteToHttpMethod_eq.
Qed.

Lemma loadRoute_untouched a route :
  untouched_by_loading (loadRoute a route) = untouched_by_loading a /\
  collaborators (loadRoute a route) = collaborators a.
Proof.
  unfold loadRoute. destruct (includes_route (_loadedRoutes a) route); [done |].
  destruct (add_methods_untouched route (method_list route) a) as [H1 H2].
  cbv zeta in H1, H2. unfold method_list in H1, H2. by rewrite <- H1, <- H2.
Qed.

Lemma load_untouched routes : forall a,
  untouched_by_loading (fold_left loadRoute routes a) = untouched_by_loading a /\
  collaborators (fold_left loadRoute routes a) = collaborators a.
Proof.
  induction routes as [| r routes IH]; intros a; [done |].
  cbn [fold_left]. destruct (IH (loadRoute a r)) as [-> ->]. apply loadRoute_untouched.
Qed.

Lemma add_methods_emitted route methods : forall a,
  emitted (fold_left (fun a method => addRouteToHttpMethod method route a) methods a) =
  emitted a ++ flat_map announce (map (binding_of route) methods).
Proof.
  induction methods as [| m methods IH]; intros a; cbn [fold_left map flat_map].
  - by rewrite app_nil_r.
  - rewrite IH, addRouteToHttpMethod_eq. simpl. by rewrite <- !app_assoc.
Qed.

Lemma loadRoute_emitted a route :
  emitted (loadRoute a route) =
  if includes_route (_loadedRoutes a) route then emitted a
  else emitted a ++ flat_map announce (map (binding_of route) (method_list route)).
Proof.
  unfold loadRoute. destruct (includes_route (_loadedRoutes a) route); [done |].
  simpl. by rewrite add_methods_emitted.
Qed.

Lemma load_announces routes : forall a,
  exists added,
    bindings (express (fold_left loadRoute routes a)) = bindings (express a) ++ added /\
    emitted (fold_left loadRoute routes a) = emitted a ++ flat_map announce added.
Proof.
  induction routes as [| r routes IH]; intros a; cbn [fold_left].
  - exists []. by rewrite !app_nil_r.
  - destruct (IH (loadRoute a r)) as (added & -> & ->).
    rewrite loadRoute_bindings, loadRoute_emitted.
    destruct (includes_route (_loadedRoutes a) r).
    + by exists added.
    + exists (map (binding_of r) (method_list r) ++ added).
      by rewrite flat_map_app, <- !app_assoc.
Qed.

Lemma includes_ref_In (l : list IProxiedRoute.t) (k : nat) :
  includes_ref l k = true <-> In k (map IProxiedRoute.ref l).
Proof.
  unfold includes_ref. rewrite existsb_exists, in_map_iff. split.
  - intros (r & Hin & Heq). apply Nat.eqb_eq in Heq. by exists r.
  - intros (r & Heq & Hin). exists r. split; [done |]. by apply Nat.eqb_eq.
Qed.

Lemma loadRoute_NoDup a route :
  NoDup (map IProxiedRoute.ref (_loadedRoutes a)) ->
  NoDup (map IProxiedRoute.ref (_loadedRoutes (loadRoute a route))).
Proof.
  intros H. rewrite loadRoute_loadedRoutes.
  destruct (includes_route (_loadedRoutes a) route) eqn:E; [done |].
  rewrite map_app. simpl. apply NoDup_app. split; [done |]. split.
  - intros k Hk [<- | []]%list_elem_of_In. apply list_elem_of_In in Hk.
    apply includes_ref_In in Hk. unfold includes_route in E. unfold includes_ref in Hk.
    congruence.
  - apply NoDup_singleton.
Qed.

End RouteTableFurther.

(** X9: loading routes changes nothing of the adapter but the bindings, the
    events and the list of loaded routes: containers, port, boot and start
    flags, server, listener calls, middleware, settings and the four
    functions the adapter calls stay as they were. *)
Theorem loadRoutesFromContainers_untouched (containers : list IContainer.t) (a : Adapter) :
  untouched_by_loading (loadRoutesFromContainers containers a) = untouched_by_loading a /\
  collaborators (loadRoutesFromContainers containers a) = collaborators a.
Proof. rewrite loadRoutesFromContainers_all_routes. apply load_untouched. Qed.

(** X10: the events of a load mirror its bindings: the bindings are added
    at the end of those the application had, and for each of them, in the
    same order, the adapter emits the event of its method followed by the
    generic [REQUEST] event; nothing else is emitted. *)
Theorem loadRoutesFromContainers_announces (containers : list IContainer.t) (a : Adapter) :
  exists added,
    bindings (express (loadRoutesFromContainers containers a)) =
      bindings (express a) ++ added /\
    emitted (loadRoutesFromContainers containers a) =
      emitted a ++ flat_map announce added.
Proof. rewrite loadRoutesFromContainers_all_routes. apply load_announces. Qed.

(** X11: no descriptor is ever loaded twice: if the loaded routes are
    pairwise distinct objects, they still are after loading any containers,
    whatever repetitions the containers hold. *)
Theorem loadRoutesFromContainers_keeps_routes_distinct
    (containers : list IContainer.t) (a : Adapter) :
  NoDup (map IProxiedRoute.ref (_loadedRoutes a)) ->
  NoDup (map IProxiedRoute.ref (_loadedRoutes (loadRoutesFromContainers containers a))).
Proof.
  rewrite loadRoutesFromContainers_all_routes.
  generalize (all_routes containers). intros routes. revert a.
  induction routes as [| r routes IH]; intros a H; [done |].
  cbn [fold_left]. apply IH. by apply loadRoute_NoDup.
Qed.

Lemma loadRoutesFromContainers_keeps_routes_distinct_witness :
  NoDup (map IProxiedRoute.ref
           (_loadedRoutes
              (loadRoutesFromContainers [api_container; api_container] (new_Adapter None)))).
Proof.
  apply (loadRoutesFromContainers_keeps_routes_distinct [api_container; api_container]
           (new_Adapter None)).
  simpl. apply NoDup_nil_2.
Defined.

Section UrlNormalization.

Lemma trimStart_blank (s : string) : all_white_space s = true -> trimStart s = "".
Proof.
  induction s as [| c s IH]; [done |]. simpl.
  intros [Hc Hs]%andb_prop. rewrite Hc. by apply IH.
Qed.

Lemma trimStart_id (s : string) : begins_with_white_space s = false -> trimStart s = s.
Proof. destruct s as [| c s]; [done |]. simpl. by intros ->. Qed.

Lemma trimEnd_id (s : string) : ends_with_white_space s = false -> trimEnd s = s.
Proof.
  induction s as [| c s IH]; [done |].
  destruct s as [| c' s'].
  - simpl. by intros ->.
  - intros H. change (ends_with_white_space (String c' s') = false) in H.
    change (trimEnd (String c (String c' s')))
      with (match trimEnd (String c' s') with
            | EmptyString => if is_white_space c then EmptyString else String c EmptyString
            | t => String c t
            end).
    by rewrite (IH H).
Qed.

Lemma trim_id (s : string) :
  begins_with_white_space s = false -> ends_with_white_space s = false -> trim s = s.
Proof. intros H1 H2. unfold trim. rewrite (trimStart_id s H1). by apply trimEnd_id. Qed.

Lemma trim_trimmed (u : string) :
  begins_with_white_space (trim u) = false /\ ends_with_white_space (trim u) = false.
Proof. destruct (trim_spec u) as (l & r & _ & _ & _ & H1 & H2). by split. Qed.

Lemma url_by_spec_begins_with_slash (u : string) : begins_with_slash (url_by_spec u) = true.
Proof.
  unfold url_by_spec. destruct (begins_with_slash (trim u)) eqn:E; [done |]. reflexivity.
Qed.

Lemma url_by_spec_trimmed (u : string) : trim (url_by_spec u) = url_by_spec u.
Proof.
  destruct (trim_trimmed u) as [H1 H2]. unfold url_by_spec.
  destruct (begins_with_slash (trim u)); [by apply trim_id |].
  apply trim_id; [reflexivity |].
  change ("/" +:+ trim u) with (String "/" (trim u)).
  destruct (trim u) as [| c t]; [reflexivity | exact H2].
Qed.

Lemma url_by_spec_idempotent (u : string) : url_by_spec (url_by_spec u) = url_by_spec u.
Proof.
  unfold url_by_spec at 1. by rewrite url_by_spec_trimmed, url_by_spec_begins_with_slash.
Qed.

Lemma url_by_spec_blank (u : string) : all_white_space u = true -> url_by_spec u = "/".
Proof. intros H. unfold url_by_spec, trim. by rewrite (trimStart_blank u H). Qed.

End UrlNormalization.

(** X12: the path [addRouteToHttpMethod] binds always begins with a slash
    and has no white space around it; a route whose URL is empty or only
    white space is bound at ["/"]; and a route whose URL is a path that was
    bound before is bound at that same path. *)
Theorem addRouteToHttpMethod_path (method : HTTPMethod) (route : IProxiedRoute.t)
    (a : Adapter) :
  exists b,
    bindings (express (addRouteToHttpMethod method route a)) = bindings (express a) ++ [b] /\
    verb b = method /\ bound_route b = route /\
    begins_with_slash (path b) = true /\
    trim (path b) = path b /\
    (all_white_space (IProxiedRoute.url route) = true -> path b = "/") /\
    (forall method' route' a',
        IProxiedRoute.url route' = path b ->
        exists b',
          bindings (express (addRouteToHttpMethod method' route' a')) =
            bindings (express a') ++ [b'] /\
          path b' = path b).
Proof.
  exists (binding_of route method). rewrite addRouteToHttpMethod_eq.
  split; [reflexivity |]. split; [reflexivity |]. split; [reflexivity |].
  split; [apply url_by_spec_begins_with_slash |].
  split; [apply url_by_spec_trimmed |].
  split; [apply url_by_spec_blank |].
  intros method' route' a' Hurl. exists (binding_of route' method').
  rewrite addRouteToHttpMethod_eq. split; [reflexivity |].
  simpl. rewrite Hurl. apply url_by_spec_idempotent.
Qed.

Lemma addRouteToHttpMethod_path_witness :
  exists b,
    bindings (express (addRouteToHttpMethod get_
                         {| IProxiedRoute.ref := 9; IProxiedRoute.url := "   ";
                            IProxiedRoute.methods := one_method get_ |}
                         (new_Adapter None))) = [b] /\
    path b = "/".
Proof.
  destruct (addRouteToHttpMethod_path get_
              {| IProxiedRoute.ref := 9; IProxiedRoute.url := "   ";
                 IProxiedRoute.methods := one_method get_ |}
              (new_Adapter None)) as (b & Hb & _ & _ & _ & _ & Hblank & _).
  exists b. split; [exact Hb |]. apply Hblank. reflexivity.
Defined.

(** X13: every path bound by loading containers begins with a slash, if the
    paths bound before did. *)
Theorem loadRoutesFromContainers_paths_begin_with_slash
    (containers : list IContainer.t) (a : Adapter) :
  Forall (fun b => begins_with_slash (path b) = true) (bindings (express a)) ->
  Forall (fun b => begins_with_slash (path b) = true)
         (bindings (express (loadRoutesFromContainers containers a))).
Proof.
  intros H. apply Forall_forall. intros b Hb%list_elem_of_In.
  rewrite loadRoutesFromContainers_all_routes in Hb.
  apply load_bindings_In in Hb as [Hold | (route & m & ->)].
  - rewrite Forall_forall in H. apply H. by apply list_elem_of_In.
  - apply url_by_spec_begins_with_slash.
Qed.

Lemma loadRoutesFromContainers_paths_begin_with_slash_witness :
  Forall (fun b => begins_with_slash (path b) = true)
         (bindings (express (loadRoutesFromContainers [api_container] (new_Adapter None)))).
Proof.
  apply (loadRoutesFromContainers_paths_begin_with_slash [api_container] (new_Adapter None)).
  simpl. apply Forall_nil_2.
Defined.

Section LoadedRoutesFurther.

Lemma loadedRoutes_size (l : list IProxiedRoute.t) : forall loaded : RoutesByURL,
  size (own_entries (fold_left assign l loaded)) <= size (own_entries loaded) + List.length l.
Proof.
  induction l as [| r l IH]; intros loaded; simpl; [lia |].
  etrans; [apply IH |]. unfold assign.
  destruct (String.eqb (IProxiedRoute.url r) "__proto__"); simpl; [lia |].
  destruct (own_entries loaded !! IProxiedRoute.url r) eqn:E.
  - rewrite map_size_insert_Some by done. lia.
  - rewrite map_size_insert_None by done. lia.
Qed.

End LoadedRoutesFurther.

(** X14: as long as no loaded route has the URL [__proto__], the object
    [loadedRoutes()] returns has an entry under a URL exactly when some
    loaded route has that URL, the entry is a loaded route with that URL,
    the object has at most as many entries as there are loaded routes, and
    its prototype is the one it was made with. *)
Theorem loadedRoutes_sound (a : Adapter) (u : string) :
  (forall route, In route (_loadedRoutes a) -> IProxiedRoute.url route <> "__proto__") ->
  (forall route, loadedRoutes a !! u = Some route ->
                 In route (_loadedRoutes a) /\ IProxiedRoute.url route = u) /\
  (loadedRoutes a !! u = None <->
   forall route, In route (_loadedRoutes a) -> IProxiedRoute.url route <> u) /\
  size (loadedRoutes a) <= List.length (_loadedRoutes a) /\
  prototype (loadedRoutes a) = None.
Proof.
  intros Hproto. rewrite (loadedRoutes_entries a u Hproto). split; [| split; [| split]].
  - intros route H.
    apply find_some in H as [Hin Hurl]. apply in_rev in Hin.
    split; [done | by apply String.eqb_eq].
  - destruct (List.find _ _) as [r |] eqn:E.
    + apply find_some in E as [Hin Hurl]. apply in_rev in Hin.
      apply String.eqb_eq in Hurl. split; [done |]. intros H. by destruct (H r Hin).
    + split; [| done]. intros _ route Hin Hurl.
      apply in_rev in Hin. pose proof (find_none _ _ E route Hin) as Hne.
      apply String.eqb_neq in Hne. by apply Hne.
  - pose proof (loadedRoutes_size (_loadedRoutes a)
                  {| own_entries := ∅; prototype := None |}) as H.
    simpl in H. rewrite map_size_empty in H. exact H.
  - unfold loadedRoutes. rewrite loadedRoutes_prototype.
    by rewrite (find_url_none _ _ Hproto).
Qed.

Lemma loadedRoutes_sound_witness :
  let a := loadRoutesFromContainers [api_container] (new_Adapter None) in
  In health_route (_loadedRoutes a) /\ IProxiedRoute.url health_route = "/health".
Proof.
  cbv zeta.
  assert (H : forall route,
             In route (_loadedRoutes
                         (loadRoutesFromContainers [api_container] (new_Adapter None))) ->
             IProxiedRoute.url route <> "__proto__").
  { vm_compute. intros route [<- | [<- | [<- | []]]]; discriminate. }
  apply (proj1 (loadedRoutes_sound
                  (loadRoutesFromContainers [api_container] (new_Adapter None)) "/health" H)).
  by vm_compute.
Defined.

(** ** Containers, boot and the listener *)

Section LifecycleFurther.

Lemma includes_container_In (l : list IContainer.t) (c : IContainer.t) :
  includes_container l c = true <-> In (IContainer.ref c) (map IContainer.ref l).
Proof.
  unfold includes_container. rewrite existsb_exists, in_map_iff. split.
  - intros (x & Hin & Heq). apply Nat.eqb_eq in Heq. by exists x.
  - intros (x & Heq & Hin). exists x. split; [done |]. by apply Nat.eqb_eq.
Qed.

Lemma boot_booted (a : Adapter) : _booted (boot a) = true.
Proof. unfold boot. by destruct (_booted a) eqn:E. Qed.

Lemma boot_again (a : Adapter) : _booted a = true -> boot a = a.
Proof. unfold boot. by intros ->. Qed.

Lemma start_booted (a : Adapter) : _booted (start a) = true.
Proof. unfold start. simpl. apply boot_booted. Qed.

Lemma start_port (a : Adapter) : _port (start a) = _port a.
Proof.
  pose proof (boot_listener a) as H. unfold listener_fields in H.
  injection H as _ Hport _ _. unfold start. simpl. exact Hport.
Qed.

Lemma start_of_booted (a : Adapter) :
  _booted a = true ->
  start a =
  set_started true
    (set_server (Some (List.length (servers a)))
       (set_servers (servers a ++ [listen (List.length (servers a)) (_port a)]) a)).
Proof. intros H. unfold start. by rewrite (boot_again a H). Qed.

Lemma stop_of_start (a : Adapter) :
  stop (start a) =
  set_started false
    (set_servers (servers (start a) ++ [close (List.length (servers a))]) (start a)).
Proof. unfold stop. rewrite start_server. reflexivity. Qed.

End LifecycleFurther.

(** X15: [addContainer] keeps one entry per container: adding a container
    that is already there changes nothing, after adding a container it is
    there, and containers that were pairwise distinct objects stay so. *)
Theorem addContainer_once (container : IContainer.t) (a : Adapter) :
  addContainer container (addContainer container a) = addContainer container a /\
  includes_container (containers (addContainer container a)) container = true /\
  (NoDup (map IContainer.ref (containers a)) ->
   NoDup (map IContainer.ref (containers (addContainer container a)))).
Proof.
  unfold addContainer.
  destruct (includes_container (containers a) container) eqn:E; simpl.
  - by rewrite E.
  - assert (Hin : includes_container (containers a ++ [container]) container = true).
    { unfold includes_container. rewrite existsb_app. simpl.
      by rewrite Nat.eqb_refl, orb_true_r. }
    rewrite Hin. simpl. split; [done |]. split; [done |].
    intros H. rewrite map_app. simpl. apply NoDup_app. split; [done |]. split.
    + intros k Hk [<- | []]%list_elem_of_In. apply list_elem_of_In in Hk.
      apply includes_container_In in Hk. congruence.
    + apply NoDup_singleton.
Qed.

Lemma addContainer_once_witness :
  NoDup (map IContainer.ref
           (containers (addContainer api_container
                          (addContainer admin_container (new_Adapter None))))).
Proof.
  apply (proj2 (proj2 (addContainer_once api_container
                         (addContainer admin_container (new_Adapter None))))).
  simpl. apply NoDup_singleton.
Defined.

(** X16: [boot] does its work once. A second [boot] changes nothing. The
    first one installs the three parsers in order, switches [x-powered-by]
    off and loads every route of every container the adapter holds, and it
    leaves the adapter booted. *)
Theorem boot_once (a : Adapter) :
  boot (boot a) = boot a /\
  _booted (boot a) = true /\
  (_booted a = false ->
   used (express (boot a)) = used (express a) ++ boot_middleware /\
   disabled (express (boot a)) = disabled (express a) ++ ["x-powered-by"] /\
   forall container route,
     In container (containers a) -> In route (IContainer.allRoutes container) ->
     includes_route (_loadedRoutes (boot a)) route = true).
Proof.
  split; [apply boot_again, boot_booted |]. split; [apply boot_booted |].
  intros H. unfold boot. rewrite H.
  set (a4 := set_express (disable "x-powered-by" _) _).
  rewrite loadRoutesFromContainers_all_routes.
  destruct (load_untouched (all_routes (containers a4)) a4) as [Hsame _].
  unfold untouched_by_loading in Hsame. injection Hsame as _ _ _ _ _ _ Hused Hdisabled.
  split; [| split].
  - simpl. rewrite Hused. simpl. by rewrite <- !app_assoc.
  - simpl. rewrite Hdisabled. reflexivity.
  - intros container route Hc Hr. simpl. apply load_includes.
    unfold all_routes. apply in_flat_map. by exists container.
Qed.

Lemma boot_once_witness :
  used (express (boot (addContainer api_container (new_Adapter None)))) = boot_middleware /\
  includes_route
    (_loadedRoutes (boot (addContainer api_container (new_Adapter None)))) health_route = true.
Proof.
  destruct (boot_once (addContainer api_container (new_Adapter None)))
    as (_ & _ & Hfirst).
  destruct (Hfirst eq_refl) as (Hused & _ & Hroutes).
  split; [exact Hused |].
  apply (Hroutes api_container health_route); simpl; [by left | right; by left].
Defined.

(** X17: a container added after the adapter was booted is never exposed:
    neither [boot] nor [start] loads its routes, so the bindings, the loaded
    routes and the events stay as they were. *)
Theorem container_added_after_boot_is_not_loaded (container : IContainer.t) (a : Adapter) :
  _booted a = true ->
  boot (addContainer container a) = addContainer container a /\
  bindings (express (start (addContainer container a))) = bindings (express a) /\
  _loadedRoutes (start (addContainer container a)) = _loadedRoutes a /\
  emitted (start (addContainer container a)) = emitted a.
Proof.
  intros H.
  assert (Hb : _booted (addContainer container a) = true).
  { unfold addContainer. by destruct (negb _). }
  split; [by apply boot_again |].
  rewrite (start_of_booted _ Hb). unfold addContainer. by destruct (negb _).
Qed.

Lemma container_added_after_boot_is_not_loaded_witness :
  bindings (express (start (addContainer admin_container (boot (new_Adapter None))))) = [] /\
  _loadedRoutes (start (addContainer admin_container (boot (new_Adapter None)))) = [].
Proof.
  destruct (container_added_after_boot_is_not_loaded admin_container
              (boot (new_Adapter None)) eq_refl) as (_ & Hbindings & Hroutes & _).
  split; [exact Hbindings | exact Hroutes].
Defined.

(** X18: the port can be changed only while the adapter is not started:
    [onPort] on a started adapter changes nothing, and on an adapter that is
    not started it sets the port the next [start] listens on. *)
Theorem onPort_only_before_start (port : Z) (a : Adapter) :
  onPort port (start a) = start a /\
  (_started a = false ->
   _port (onPort port a) = port /\
   servers (start (onPort port a)) =
     servers a ++ [listen (List.length (servers a)) port]) /\
  _port (onPort port (stop (start a))) = port.
Proof.
  split; [reflexivity |]. split.
  - intros H. unfold onPort. rewrite H. split; [reflexivity |].
    by rewrite start_servers.
  - by rewrite stop_of_start.
Qed.

Lemma onPort_only_before_start_witness :
  servers (start (onPort 8080 (new_Adapter None))) = [listen 0 8080].
Proof.
  apply (proj1 (proj2 (onPort_only_before_start 8080 (new_Adapter None)))).
  reflexivity.
Defined.

(** X19: [start] has no guard of its own. Started twice, the adapter opens
    a second listener on the same port and forgets the first: [stop] then
    closes the second only, and the adapter counts as stopped while the
    first listener is still open. *)
Theorem start_twice_leaves_a_listener_open (a : Adapter) :
  let first := List.length (servers a) in
  servers (stop (start (start a))) =
    servers a ++ [listen first (_port a); listen (S first) (_port a); close (S first)] /\
  _started (stop (start (start a))) = false /\
  stop (stop (start (start a))) = stop (start (start a)).
Proof.
  cbv zeta. rewrite (stop_of_start (start a)).
  split; [| split; reflexivity].
  cbn [servers set_started set_servers].
  rewrite (start_servers (start a)), start_port, start_servers.
  rewrite length_app. simpl. rewrite Nat.add_1_r. by rewrite <- !app_assoc.
Qed.

(** X20: stopping and starting again opens a new listener and nothing
    more: the middleware, the settings, the bindings, the loaded routes and
    the events are those of the first start. *)
Theorem restart_does_not_register_again (a : Adapter) :
  let first := List.length (servers a) in
  let again := start (stop (start a)) in
  express again = express (start a) /\
  _loadedRoutes again = _loadedRoutes (start a) /\
  emitted again = emitted (start a) /\
  _started again = true /\
  servers again =
    servers a ++ [listen first (_port a); close first; listen (S (S first)) (_port a)].
Proof.
  cbv zeta. rewrite stop_of_start.
  rewrite start_of_booted by (simpl; apply start_booted).
  split; [reflexivity |]. split; [reflexivity |]. split; [reflexivity |].
  split; [reflexivity |].
  cbn [servers _port set_started set_servers set_server].
  rewrite start_servers, start_port, !length_app. simpl.
  rewrite <- !app_assoc. simpl. repeat f_equal. lia.
Qed.

(** ** More on the orchestration of a request *)

Section RequestHandlerFurther.



End RequestHandlerFurther.


